(** * pytsa: track construction, kinematic correction and rule-based partitioning

    A shallow embedding of [pytsa/tsea/search_agent.py],
    [pytsa/trajectories/rules.py] and [pytsa/trajectories/inspect.py].

    - Python dictionaries ([Targets = dict[MMSI,TargetShip]]) are [gmap Z _].
    - Python floats and numpy float64 scalars are binary64 values ([float]).
    - Code that can raise returns a [result]; the exception is kept.
    - Mutation of an object in place is explicit state passing. *)

From Stdlib Require Import ZArith Floats Lia.
From stdpp Require Import gmap list strings fin_maps sorting.

Local Open Scope Z_scope.

(** ** Exceptions *)

Inductive exn : Set :=
| AttributeError | TypeError | KeyError | ValueError
| IndexError | ZeroDivisionError | AssertionError.

Inductive result (A : Type) : Type :=
| Ok (a : A)
| Raise (e : exn).
Arguments Ok {A} a.
Arguments Raise {A} e.

(** [let* x := m in k] runs [m] and, unless it raised, [k] on its value. *)
Definition bind {A B} (m : result A) (k : A → result B) : result B :=
  match m with Ok a => k a | Raise e => Raise e end.

Notation "'let*' x := m 'in' k" := (bind m (λ x, k))
  (at level 10, x pattern, m at level 200, k at level 200).

#[global] Instance result_ret : MRet result := @Ok.
#[global] Instance result_bind : MBind result := λ A B k m, bind m k.
#[global] Instance result_fmap : FMap result :=
  λ A B f m, let* a := m in Ok (f a).

(** The binary64 value of an integer below [2^63] in magnitude. *)
Definition float_of_Z (z : Z) : float :=
  if z <? 0 then PrimFloat.opp (PrimFloat.of_uint63 (Uint63.of_Z (- z)))
  else PrimFloat.of_uint63 (Uint63.of_Z z).

(** [assert cond] *)
Definition py_assert (cond : bool) : result unit :=
  if cond then Ok tt else Raise AssertionError.

(** [l[-1]] *)
Definition py_last {A} (l : list A) : result A :=
  match last l with Some x => Ok x | None => Raise IndexError end.

(** [l[0]] *)
Definition py_first {A} (l : list A) : result A :=
  match l with x :: _ => Ok x | [] => Raise IndexError end.

(** A monadic left fold: a [for] loop whose body can raise. *)
Fixpoint foldlM {S A} (body : S → A → result S) (s : S) (l : list A) : result S :=
  match l with
  | [] => Ok s
  | x :: r => let* s' := body s x in foldlM body s' r
  end.

(** ** Data model (pytsa/tsea/targetship.py, as used by the three modules) *)

Abbreviation MMSI := Z (only parsing).

(** [timestamp] is the Unix time of the report in seconds. The parallel
    construction path stores a Python int there and the sequential path a
    float; the field holds the binary64 value of either, on which comparison,
    subtraction and the arithmetic of the corrections give what Python gives
    on an int below [2^53]. *)

Record AISMessage : Set := {
  sender : MMSI;
  timestamp : float;
  lat : float;
  lon : float;
  COG : float;
  SOG : float
}.

Abbreviation Track := (list AISMessage) (only parsing).

(** * pytsa/trajectories/rules.py *)

(** What [typing] annotations a signature can carry: [list[AISMessage]],
    [bool], no annotation at all, or anything else. *)
Inductive annotation : Set :=
| list_AISMessage
| bool_
| no_annotation
| other (repr : string).

#[global] Instance annotation_eq_dec : EqDecision annotation.
Proof. solve_decision. Defined.

(** [inspect.Parameter.kind] *)
Inductive kind : Set :=
| POSITIONAL_ONLY | POSITIONAL_OR_KEYWORD | VAR_POSITIONAL
| KEYWORD_ONLY | VAR_KEYWORD.

Record Param : Set := {
  name : string;
  p_kind : kind;
  p_annotation : annotation;
  has_default : bool
}.

Record Signature : Set := {
  parameters : list Param;
  return_annotation : annotation
}.

(** The objects that can be handed to [Recipe(...)]: something that is not
    callable; a callable [inspect.signature] cannot describe (it raises
    [ValueError]); a function with its signature and its body, where
    [body track] is what the function does once the argument of a call
    [func(track)] is bound; and a callable whose signature, as
    [inspect.signature] reports it, is not read off the parameters a call is
    bound against: a wrapper made with [functools.wraps], which reports the
    signature of the wrapped function, or an object with a [__signature__]
    attribute. Of these [behaviour track] is what the call [func(track)] does,
    the binding of its argument included. *)
Inductive pyobject : Type :=
| NonCallable
| Builtin (body : Track → result bool)
| Function (sig : Signature) (body : Track → result bool)
| Described (sig : Signature) (behaviour : Track → result bool).

(** [sig.parameters["track"]] *)
Definition parameters_getitem (key : string) (sig : Signature) : result Param :=
  match List.find (λ p, bool_decide (name p = key)) (parameters sig) with
  | Some p => Ok p
  | None => Raise KeyError
  end.

(** [callable(func)] *)
Definition callable (func : pyobject) : bool :=
  match func with
  | NonCallable => false
  | _ => true
  end.

(** [inspect.signature(func)] *)
Definition signature (func : pyobject) : result Signature :=
  match func with
  | NonCallable => Raise TypeError
  | Builtin _ => Raise ValueError
  | Function sig _ | Described sig _ => Ok sig
  end.

Definition _check_signature (func : pyobject) : result unit :=
  if negb (callable func) then Raise TypeError else
  let* sig := signature func in
  if negb (length (parameters sig) =? 1)%nat then Raise TypeError else
  let* p := parameters_getitem "track" sig in
  if bool_decide (p_annotation p ≠ list_AISMessage) then Raise TypeError else
  if bool_decide (return_annotation sig ≠ bool_) then Raise TypeError else
  Ok tt.

Record Recipe : Type := { funcs : list pyobject }.

(** [Recipe.__init__] *)
Definition Recipe_init (fs : list pyobject) : result Recipe :=
  let* _ := mapM _check_signature fs in
  Ok {| funcs := fs |}.

(** Whether a parameter can take the single positional argument of
    [func(track)], and whether a parameter must be given by the caller. *)
Definition takes_positional (p : Param) : bool :=
  match p_kind p with
  | POSITIONAL_ONLY | POSITIONAL_OR_KEYWORD | VAR_POSITIONAL => true
  | KEYWORD_ONLY | VAR_KEYWORD => false
  end.

Definition required (p : Param) : bool :=
  match p_kind p with
  | VAR_POSITIONAL | VAR_KEYWORD => false
  | _ => negb (has_default p)
  end.

(** Argument binding of a call with exactly one positional argument. *)
Definition binds_one_positional (sig : Signature) : bool :=
  match parameters sig with
  | [] => false
  | p :: rest => takes_positional p && forallb (λ q, negb (required q)) rest
  end.

(** [func(track)]: the argument is bound against the parameters of the
    callable itself, which for a function are those of its signature. *)
Definition call (func : pyobject) (track : Track) : result bool :=
  match func with
  | NonCallable => Raise TypeError
  | Builtin body => body track
  | Function sig body =>
      if binds_one_positional sig then body track else Raise TypeError
  | Described _ behaviour => behaviour track
  end.

(** [all(func(track) for func in funcs)]: the generator is consumed up to the
    first falsy value. *)
Fixpoint py_all (fs : list pyobject) (track : Track) : result bool :=
  match fs with
  | [] => Ok true
  | func :: rest =>
      let* b := call func track in
      if b then py_all rest track else Ok false
  end.

(** [Recipe.cook] returns the closure [cooked]. *)
Definition cook (r : Recipe) : Track → result bool :=
  λ track, py_all (funcs r) track.

(** *** Rule functions *)

Definition too_few_obs (track : Track) (n : Z) : bool :=
  Z.of_nat (length track) <? n.

(** [np.maximum] and [np.minimum] on two scalars: a NaN operand is returned. *)
Definition np_maximum (a b : float) : float :=
  if PrimFloat.is_nan a then a
  else if PrimFloat.is_nan b then b
  else if PrimFloat.ltb a b then b else a.

Definition np_minimum (a b : float) : float :=
  if PrimFloat.is_nan a then a
  else if PrimFloat.is_nan b then b
  else if PrimFloat.ltb b a then b else a.

(** [np.ptp(xs)] of a Python list: the range [max - min]; the reduction of
    an empty array raises [ValueError]. *)
Definition np_ptp (xs : list float) : result float :=
  match xs with
  | [] => Raise ValueError
  | x :: r => Ok (PrimFloat.sub (foldl np_maximum x r) (foldl np_minimum x r))
  end.

Definition too_small_span (track : Track) (span : float) : result bool :=
  let* lat_span := np_ptp (map lat track) in
  let* lon_span := np_ptp (map lon track) in
  Ok (PrimFloat.ltb span lat_span && PrimFloat.ltb span lon_span).

(** [def rule(track: list[AISMessage]) -> bool: ...] *)
Definition track_parameter : Param :=
  {| name := "track"; p_kind := POSITIONAL_OR_KEYWORD;
     p_annotation := list_AISMessage; has_default := false |}.

Definition def_rule (body : Track → result bool) : pyobject :=
  Function {| parameters := [track_parameter]; return_annotation := bool_ |} body.

(** A rule whose only parameter is keyword-only:
    [def rule( *, track: list[AISMessage]) -> bool: ...] *)
Definition def_rule_kwonly (body : Track → result bool) : pyobject :=
  Function
    {| parameters :=
         [ {| name := "track"; p_kind := KEYWORD_ONLY;
              p_annotation := list_AISMessage; has_default := false |} ];
       return_annotation := bool_ |}
    body.

(** [functools.wraps(wrapped)(wrapper)] for a function [wrapped] of signature
    [sig]: the object is [wrapper], and a call binds its argument against the
    parameters of [wrapper]; [inspect.signature] follows [__wrapped__] and
    reports [sig]. *)
Definition wraps (sig : Signature) (wrapper : pyobject) : pyobject :=
  Described sig (call wrapper).

(** [def wrapper() -> bool: ...], which takes no argument. *)
Definition def_no_parameter (body : Track → result bool) : pyobject :=
  Function {| parameters := []; return_annotation := bool_ |} body.

(** A rule whose one parameter has another name:
    [def rule(name: list[AISMessage]) -> bool: ...] *)
Definition def_rule_named (name : string) (body : Track → result bool)
    : pyobject :=
  Function
    {| parameters :=
         [ {| name := name; p_kind := POSITIONAL_OR_KEYWORD;
              p_annotation := list_AISMessage; has_default := false |} ];
       return_annotation := bool_ |}
    body.

(** [functools.partial(rule, kw=value)] of a two-parameter rule function
    [rule(track: list[AISMessage], kw: ann) -> bool]: in the signature of the
    partial object the bound parameter stays, keyword-only with a default. *)
Definition partial_kw (kw : string) (ann : annotation)
    (body : Track → result bool) : pyobject :=
  Function
    {| parameters :=
         [ track_parameter;
           {| name := kw; p_kind := KEYWORD_ONLY;
              p_annotation := ann; has_default := true |} ];
       return_annotation := bool_ |}
    body.

(** * pytsa/tsea/search_agent.py *)

(** The vessel length is [max(sl)] (a scalar) when several lengths are on
    record and the array [sl] itself otherwise. *)
Inductive ShipLength : Set :=
| length_scalar (x : Z)
| length_array (xs : list Z).

(** [TargetShip]: the attributes the three modules read and write. [ts] is
    the query time the vessel was found for; the field [length] of the
    source is [ship_length] here. *)
Record TargetShip : Set := {
  ts : option float;
  mmsi : MMSI;
  ship_type : list Z;
  ship_length : ShipLength;
  tracks : list Track;
  shell : option (AISMessage * AISMessage)
}.

Definition set_tracks (tv : TargetShip) (trs : list Track) : TargetShip :=
  {| ts := ts tv; mmsi := mmsi tv; ship_type := ship_type tv;
     ship_length := ship_length tv; tracks := trs; shell := shell tv |}.

(** Modelled from the spec: [TargetShip.find_shell] (pytsa/tsea/targetship.py
    is not among the sources). The shell is the first and the last report of
    the vessel's full report span. *)
Definition find_shell (tv : TargetShip) : TargetShip :=
  let reports := concat (tracks tv) in
  {| ts := ts tv; mmsi := mmsi tv; ship_type := ship_type tv;
     ship_length := ship_length tv; tracks := tracks tv;
     shell := match reports, last reports with
              | m0 :: _, Some m1 => Some (m0, m1)
              | _, _ => None
              end |}.

Abbreviation Targets := (gmap Z TargetShip).

Record TimePosition : Set := {
  tpos_timestamp : float;
  tpos_lat : float;
  tpos_lon : float
}.

(** A row of the dynamic-message dataframe. The [timestamp] column holds
    [pd.Timestamp] values, kept as pandas stores them: an integer count of
    nanoseconds since the epoch. *)
Record Row : Set := {
  row_mmsi : MMSI;
  row_timestamp : Z;
  row_lat : float;
  row_lon : float;
  row_speed : float;
  row_course : float
}.

Abbreviation DataFrame := (list Row) (only parsing).

(** A row of the static-message dataframe (message type 5). *)
Record StaticRow : Set := {
  static_mmsi : MMSI;
  static_ship_type : Z;
  static_to_bow : Z;
  static_to_stern : Z
}.

(** The part of [SearchAgent]'s state the modelled methods use. *)
Record SearchAgent : Set := {
  static_msgs : list StaticRow;
  max_tgt_ships : Z;
  _n_speed_correction : Z;
  _n_position_correction : Z
}.

(** What the module takes from modules that are not modelled here: the
    split test of pytsa/tsea/split.py, equality of two distinct [AISMessage]
    objects, and the pandas methods it calls. *)
Class Collaborators : Type := {
  (** [split.is_split_point(msg_t0, msg_t1)] *)
  is_split_point : AISMessage → AISMessage → bool;
  (** [a == b] for two distinct [AISMessage] objects *)
  msg_eqb : AISMessage → AISMessage → bool;
  (** [df.sort_values(by="timestamp")] *)
  sort_values : DataFrame → DataFrame;
  (** [int(ts.timestamp())] *)
  int_timestamp : Z → float;
  (** [ts.to_pydatetime().timestamp()] *)
  pydatetime_timestamp : Z → float
}.

(** The numpy functions of [_break_down_velocity]. *)
Class Numpy : Type := {
  np_cos : float → float;
  np_sin : float → float;
  np_deg2rad : float → float
}.

(** [np.unique]: the sorted distinct values. *)
Definition np_unique (xs : list Z) : list Z :=
  remove_dups (merge_sort Z.le xs).

(** [Series.unique()]: the distinct values in order of first appearance. *)
Fixpoint pd_unique (xs : list Z) : list Z :=
  match xs with
  | [] => []
  | x :: r => x :: filter (λ y, y ≠ x) (pd_unique r)
  end.

Definition _get_ship_type (self : SearchAgent) (m : MMSI) : list Z :=
  np_unique
    (map static_ship_type (filter (λ r, static_mmsi r = m) (static_msgs self))).

(** Arithmetic of numpy's [int64], the type pandas gives a column of
    integers: a result is taken modulo [2^64] into [-2^63, 2^63). *)
Definition int64 (z : Z) : Z := (z + 2 ^ 63) mod 2 ^ 64 - 2 ^ 63.

(** [np.sum(raw, axis=1)] on one row of the two [int64] columns. *)
Definition row_sum (r : StaticRow) : Z :=
  int64 (static_to_bow r + static_to_stern r).

Definition _get_ship_length (self : SearchAgent) (m : MMSI) : ShipLength :=
  let raw := filter (λ r, static_mmsi r = m) (static_msgs self) in
  let sl := np_unique (map row_sum raw) in
  match sl with
  | x :: _ :: _ => length_scalar (foldl Z.max x sl)
  | _ => length_array sl
  end.

Definition _distribute (df : DataFrame) : list DataFrame :=
  map (λ m, filter (λ r, row_mmsi r = m) df) (pd_unique (map row_mmsi df)).

(** [tracks[-1].append(msg)] *)
Definition append_to_last (msg : AISMessage) (trs : list Track)
    : result (list Track) :=
  match last trs with
  | None => Raise IndexError
  | Some t => Ok (removelast trs ++ [t ++ [msg]])
  end.

(** [tracks[-1][-1]] *)
Definition last_message (trs : list Track) : result AISMessage :=
  let* t := py_last trs in py_last t.

Section construction.
Context `{Collaborators}.

(** [x == track] for a list [x] other than [track] itself: equal lengths and
    pairwise equal elements. *)
Fixpoint track_eqb (x t : Track) : bool :=
  match x, t with
  | [], [] => true
  | a :: x', b :: t' => msg_eqb a b && track_eqb x' t'
  | _, _ => false
  end.

(** [tracks.remove(track)] where [track] is the object at index [i] of
    [tracks]: the first element equal to it goes, and the object at [i] is
    equal to itself. *)
Fixpoint list_remove (i : nat) (track : Track) (trs : list Track) : list Track :=
  match trs with
  | [] => []
  | x :: r =>
      match i with
      | O => r
      | S i' => if track_eqb x track then r else x :: list_remove i' track r
      end
  end.

(** The post-pass of [_impl_construct_target_vessel],
    [for track in tv.tracks: if len(track) < 2: tv.tracks.remove(track)]:
    the list iterator holds an index [i] into the list being changed and stops
    when [i] is past its end. The fuel bounds the number of iterations; the
    length of the list is enough. *)
Fixpoint remove_loop (fuel i : nat) (trs : list Track) : list Track :=
  match fuel with
  | O => trs
  | S fuel' =>
      match trs !! i with
      | None => trs
      | Some track =>
          if (length track <? 2)%nat
          then remove_loop fuel' (S i) (list_remove i track trs)
          else remove_loop fuel' (S i) trs
      end
  end.

Definition remove_short_in_place (trs : list Track) : list Track :=
  remove_loop (length trs) 0 trs.

(** [AISMessage(sender=MMSI, timestamp=int(ts.timestamp()), ...)] of
    [_impl_construct_target_vessel]. *)
Definition impl_message (MMSI_ : MMSI) (row : Row) : AISMessage :=
  {| sender := MMSI_;
     timestamp := int_timestamp (row_timestamp row);
     lat := row_lat row; lon := row_lon row;
     COG := row_course row; SOG := row_speed row |}.

(** [AISMessage(sender=mmsi, timestamp=ts.to_pydatetime().timestamp(), ...)]
    of [_sp_construct_target_vessels]. *)
Definition sp_message (row : Row) : AISMessage :=
  {| sender := row_mmsi row;
     timestamp := pydatetime_timestamp (row_timestamp row);
     lat := row_lat row; lon := row_lon row;
     COG := row_course row; SOG := row_speed row |}.

(** The body of the row loop of [_impl_construct_target_vessel]; the state is
    [tv.tracks] and the flag [first]. *)
Definition impl_step (MMSI_ : MMSI) (skip_tsplit : bool)
    (st : list Track * bool) (row : Row) : result (list Track * bool) :=
  let '(trs, first) := st in
  let msg := impl_message MMSI_ row in
  if first then
    let* trs := append_to_last msg trs in
    Ok (trs, false)
  else
    let* trs :=
      if negb skip_tsplit then
        let* m := last_message trs in
        Ok (if is_split_point m msg then trs ++ [[]] else trs)
      else Ok trs in
    let* trs := append_to_last msg trs in
    Ok (trs, first).

Definition _impl_construct_target_vessel (self : SearchAgent)
    (df : DataFrame) (skip_tsplit : bool) : result Targets :=
  let MMSIs := pd_unique (map row_mmsi df) in
  let* _ := py_assert (length MMSIs =? 1)%nat in
  let* MMSI_ := py_first MMSIs in
  let tv := {| ts := None; mmsi := MMSI_;
               ship_type := _get_ship_type self MMSI_;
               ship_length := _get_ship_length self MMSI_;
               tracks := [[]]; shell := None |} in
  let df := sort_values df in
  let* (trs, _) := foldlM (impl_step MMSI_ skip_tsplit) (tracks tv, true) df in
  let tv := set_tracks tv (remove_short_in_place trs) in
  let tv := find_shell tv in
  Ok {[ MMSI_ := tv ]}.

(** [targets.update(res)] for each result, in the order of the frames. *)
Definition _mp_construct_target_vessels (self : SearchAgent)
    (df : DataFrame) (njobs : Z) (skip_tsplit : bool) : result Targets :=
  let single_frames := _distribute df in
  let* _ := if njobs <? 1 then Raise ValueError else Ok tt in
  let* results :=
    mapM (λ frame, _impl_construct_target_vessel self frame skip_tsplit)
         single_frames in
  Ok (foldl (λ (targets res : Targets), res ∪ targets) ∅ results).

(** The body of the row loop of [_sp_construct_target_vessels]. *)
Definition sp_step (self : SearchAgent) (tpos : option TimePosition)
    (targets : Targets) (row : Row) : result Targets :=
  let m := row_mmsi row in
  let msg := sp_message row in
  match targets !! m with
  | None =>
      Ok (<[ m := {| ts := tpos_timestamp <$> tpos; mmsi := m;
                     ship_type := _get_ship_type self m;
                     ship_length := _get_ship_length self m;
                     tracks := [[msg]]; shell := None |} ]> targets)
  | Some v =>
      let* m0 := last_message (tracks v) in
      let trs := if is_split_point m0 msg then tracks v ++ [[]] else tracks v in
      let* trs := append_to_last msg trs in
      Ok (<[ m := set_tracks v trs ]> targets)
  end.

(** [for tgt in targets.values(): ...] where the body replaces attributes of
    [tgt] and can raise. *)
Definition values_forM (body : TargetShip → result TargetShip)
    (targets : Targets) : result Targets :=
  foldlM (λ acc kv, let* v := body kv.2 in Ok (<[ kv.1 := v ]> acc))
         targets (map_to_list targets).

Definition _remove_single_obs (targets : Targets) : Targets :=
  (λ tgt, set_tracks tgt (filter (λ track, (2 ≤ length track)%nat) (tracks tgt)))
    <$> targets.

(** [track[0].timestamp < tpos.timestamp < track[-1].timestamp] *)
Definition _overlaps_search_date (track : Track) (tpos : option TimePosition)
    : result bool :=
  let* m0 := py_first track in
  let* tp := match tpos with Some tp => Ok tp | None => Raise AttributeError end in
  if PrimFloat.ltb (timestamp m0) (tpos_timestamp tp) then
    let* m1 := py_last track in
    Ok (PrimFloat.ltb (tpos_timestamp tp) (timestamp m1))
  else Ok false.

(** [to_keep] of one vessel in [_filter_overlapping]. *)
Fixpoint overlapping_tracks (trs : list Track) (tpos : option TimePosition)
    : result (list Track) :=
  match trs with
  | [] => Ok []
  | track :: rest =>
      let* keep := _overlaps_search_date track tpos in
      let* to_keep := overlapping_tracks rest tpos in
      Ok (if keep then track :: to_keep else to_keep)
  end.

Definition _filter_overlapping (targets : Targets) (tpos : option TimePosition)
    : result Targets :=
  values_forM
    (λ tgt, let* to_keep := overlapping_tracks (tracks tgt) tpos in
            Ok (set_tracks tgt to_keep))
    targets.

Definition _sp_construct_target_vessels (self : SearchAgent)
    (df : DataFrame) (tpos : option TimePosition) (overlap : bool)
    : result Targets :=
  let df := sort_values df in
  let* targets := foldlM (sp_step self tpos) ∅ df in
  let targets := find_shell <$> targets in
  let targets := _remove_single_obs targets in
  if overlap then _filter_overlapping targets tpos else Ok targets.

Definition construct_target_vessels (self : SearchAgent) (df : DataFrame)
    (tpos : option TimePosition) (overlap : bool) (njobs : Z)
    (skip_tsplit : bool) : result Targets :=
  if njobs =? 1 then
    let* _ := py_assert (bool_decide (is_Some tpos)) in
    _sp_construct_target_vessels self df tpos overlap
  else _mp_construct_target_vessels self df njobs skip_tsplit.

(** [get_all_ships] on an agent that [init] has run on; [dynamic_msgs] is
    [self.dynamic_msgs]. *)
Definition get_all_ships (self : SearchAgent) (dynamic_msgs : DataFrame)
    (njobs : Z) (skip_tsplit : bool) : result Targets :=
  construct_target_vessels self dynamic_msgs None false njobs skip_tsplit.

End construction.

(** What [tgt.interpolate(mode)] of pytsa/tsea/targetship.py can do: return,
    having built the splines of the vessel, raise [InterpolationError], or
    raise another exception. *)
Inductive interpolation : Type :=
| Interpolated (tgt : TargetShip)
| InterpolationError
| InterpolateRaised (e : exn).

(** [_interpolate_trajectories]: the loop runs over a copy of the items, so
    that deleting from the dictionary does not disturb it. *)
Definition _interpolate_trajectories
    (interpolate : string → TargetShip → interpolation)
    (tgts : Targets) (mode : string) : result Targets :=
  foldlM (λ tgts kv,
            match interpolate mode kv.2 with
            | Interpolated tgt => Ok (<[ kv.1 := tgt ]> tgts)
            | InterpolationError => Ok (delete kv.1 tgts)
            | InterpolateRaised e => Raise e
            end)
         tgts (map_to_list tgts).

(** ** Kinematic corrections *)

(** Attribute access on the object a loop variable is bound to. *)
Class Attributes (O : Type) : Type := {
  get_timestamp : O → result float;
  get_lat : O → result float;
  get_lon : O → result float;
  get_SOG : O → result float;
  get_COG : O → result float;
  set_SOG : float → O → result O;
  set_lat : float → O → result O;
  set_lon : float → O → result O
}.

(** An [AISMessage] has every attribute. *)
#[global] Instance message_attributes : Attributes AISMessage := {|
  get_timestamp m := Ok (timestamp m);
  get_lat m := Ok (lat m);
  get_lon m := Ok (lon m);
  get_SOG m := Ok (SOG m);
  get_COG m := Ok (COG m);
  set_SOG x m := Ok {| sender := sender m; timestamp := timestamp m;
                       lat := lat m; lon := lon m; COG := COG m; SOG := x |};
  set_lat x m := Ok {| sender := sender m; timestamp := timestamp m;
                       lat := x; lon := lon m; COG := COG m; SOG := SOG m |};
  set_lon x m := Ok {| sender := sender m; timestamp := timestamp m;
                       lat := lat m; lon := x; COG := COG m; SOG := SOG m |}
|}.

(** A Python list has none of them: reading one and assigning to one both
    raise [AttributeError]. *)
#[global] Instance list_attributes {A} : Attributes (list A) := {|
  get_timestamp _ := Raise AttributeError;
  get_lat _ := Raise AttributeError;
  get_lon _ := Raise AttributeError;
  get_SOG _ := Raise AttributeError;
  get_COG _ := Raise AttributeError;
  set_SOG _ _ := Raise AttributeError;
  set_lat _ _ := Raise AttributeError;
  set_lon _ _ := Raise AttributeError
|}.

(** The C library. [x**2] on floats is [pow(x, 2.0)], which need not be the
    correctly rounded product [x*x]. Where the power is exact the result is
    fixed: [pow(+1, y)] is 1 and [pow(+0, y)] is +0 for [y = 2]. *)
Class Libm : Type := {
  (** [pow(x, 2.0)] *)
  pow2 : float → float;
  pow2_one : pow2 1 = 1%float;
  pow2_zero : pow2 0 = 0%float
}.

(** [x**2] *)
Definition square `{Libm} (x : float) : float := pow2 x.

Section corrections.
Context {O : Type} `{Attributes O} `{Libm}.

Definition _time_mean_speed (msg_t0 msg_t1 : O) : result float :=
  let* lat1 := get_lat msg_t1 in
  let* lat0 := get_lat msg_t0 in
  let lat_offset := square (PrimFloat.sub lat1 lat0) in
  let* lon1 := get_lon msg_t1 in
  let* lon0 := get_lon msg_t0 in
  let lon_offset := square (PrimFloat.sub lon1 lon0) in
  let* t1 := get_timestamp msg_t1 in
  let* t0 := get_timestamp msg_t0 in
  let time_offset := PrimFloat.sub t1 t0 in
  Ok (PrimFloat.div (PrimFloat.sqrt (PrimFloat.add lat_offset lon_offset))
                    (PrimFloat.div (PrimFloat.div time_offset 60) 60)).

(** The body of the loop of [_speed_correction]: the later object of the
    pair as the body leaves it, and whether the correction counter went up. *)
Definition speed_correction_pair (msg_t0 msg_t1 : O) : result (O * bool) :=
  let* tms := _time_mean_speed msg_t0 msg_t1 in
  let* sog0 := get_SOG msg_t0 in
  let* sog1 := get_SOG msg_t1 in
  let lower_bound := PrimFloat.sub sog0 (PrimFloat.sub sog1 sog0) in
  let upper_bound := PrimFloat.add sog1 (PrimFloat.sub sog1 sog0) in
  if negb (PrimFloat.ltb lower_bound tms && PrimFloat.ltb tms upper_bound) then
    let* msg_t1 := set_SOG tms msg_t1 in
    Ok (msg_t1, true)
  else Ok (msg_t1, false).

Context `{Numpy}.

Definition _break_down_velocity (speed course : float) : float * float :=
  (PrimFloat.mul speed (np_cos (np_deg2rad course)),
   PrimFloat.mul speed (np_sin (np_deg2rad course))).

(** The body of the loop of [_position_correction]. *)
Definition position_correction_pair (msg_t0 msg_t1 : O) : result (O * bool) :=
  let* t1 := get_timestamp msg_t1 in
  let* t0 := get_timestamp msg_t0 in
  let dt := PrimFloat.sub t1 t0 in
  let* sog0 := get_SOG msg_t0 in
  let* cog0 := get_COG msg_t0 in
  let '(sog_lon, sog_lat) := _break_down_velocity sog0 cog0 in
  let* lon0 := get_lon msg_t0 in
  let lont1 := PrimFloat.add lon0 (PrimFloat.mul sog_lon dt) in
  let* lat0 := get_lat msg_t0 in
  let latt1 := PrimFloat.add lat0 (PrimFloat.mul sog_lat dt) in
  let* lon1 := get_lon msg_t1 in
  let* lat1 := get_lat msg_t1 in
  let est_pos :=
    PrimFloat.sqrt (PrimFloat.add (square (PrimFloat.sub lont1 lon1))
                                  (square (PrimFloat.sub latt1 lat1))) in
  let* sog1 := get_SOG msg_t1 in
  let* sog0 := get_SOG msg_t0 in
  if PrimFloat.leb est_pos
       (PrimFloat.mul (PrimFloat.mul 0.5 (PrimFloat.sub sog1 sog0)) dt) then
    let* msg_t1 := set_lon lont1 msg_t1 in
    let* msg_t1 := set_lat latt1 msg_t1 in
    Ok (msg_t1, true)
  else Ok (msg_t1, false).

(** [for a, b in pairwise(objs): body(a, b)] where the body changes [b] in
    place: the object the body leaves is the first of the next pair. [n]
    counts the corrections. *)
Fixpoint pairwise_from (body : O → O → result (O * bool)) (prev : O)
    (rest : list O) (n : Z) : result (list O * Z) :=
  match rest with
  | [] => Ok ([prev], n)
  | next :: rest =>
      let* (next, corrected) := body prev next in
      let* (tail, n) := pairwise_from body next rest (if corrected then n + 1 else n) in
      Ok (prev :: tail, n)
  end.

Definition pairwise_loop (body : O → O → result (O * bool)) (objs : list O)
    (n : Z) : result (list O * Z) :=
  match objs with
  | [] => Ok ([], n)
  | first :: rest => pairwise_from body first rest n
  end.

End corrections.

Definition set_n_speed_correction (self : SearchAgent) (n : Z) : SearchAgent :=
  {| static_msgs := static_msgs self; max_tgt_ships := max_tgt_ships self;
     _n_speed_correction := n;
     _n_position_correction := _n_position_correction self |}.

Definition set_n_position_correction (self : SearchAgent) (n : Z) : SearchAgent :=
  {| static_msgs := static_msgs self; max_tgt_ships := max_tgt_ships self;
     _n_speed_correction := _n_speed_correction self;
     _n_position_correction := n |}.

(** [_speed_correction]: the inner loop is [pairwise(target.tracks)], so the
    objects paired are the elements of [target.tracks]. *)
Definition _speed_correction `{Libm} (self : SearchAgent) (targets : Targets)
    : result (SearchAgent * Targets) :=
  foldlM
    (λ st kv,
       let* (trs, n) := pairwise_loop speed_correction_pair (tracks kv.2)
                          (_n_speed_correction st.1) in
       Ok (set_n_speed_correction st.1 n, <[ kv.1 := set_tracks kv.2 trs ]> st.2))
    (self, targets) (map_to_list targets).

Definition _position_correction `{Libm} `{Numpy} (self : SearchAgent) (targets : Targets)
    : result (SearchAgent * Targets) :=
  foldlM
    (λ st kv,
       let* (trs, n) := pairwise_loop position_correction_pair (tracks kv.2)
                          (_n_position_correction st.1) in
       Ok (set_n_position_correction st.1 n, <[ kv.1 := set_tracks kv.2 trs ]> st.2))
    (self, targets) (map_to_list targets).


(** * pytsa/trajectories/inspect.py *)

(** [int / int]: the quotient as a float; [ZeroDivisionError] on a zero
    divisor. The integers here are track counts, which binary64 holds
    exactly. *)
Definition py_truediv (a b : Z) : result float :=
  if b =? 0 then Raise ZeroDivisionError
  else Ok (PrimFloat.div (float_of_Z a) (float_of_Z b)).

(** [print_rejection_rate]: the f-string is built before it is logged; the
    value returned here is the percentage it shows. *)
Definition print_rejection_rate (n_rejected n_total : Z) : result float :=
  let* rate := py_truediv n_rejected n_total in
  Ok (PrimFloat.mul rate 100).

Record Inspector : Type := {
  data : Targets;
  recipe : Track → result bool;
  rejected : Targets;
  accepted : Targets
}.

(** [Inspector.__init__] *)
Definition Inspector_init (data : Targets) (r : Recipe) : Inspector :=
  {| data := data; recipe := cook r; rejected := ∅; accepted := ∅ |}.

(** [_copy_track]: [deepcopy(vessel)] is the vessel itself, values having no
    identity here; the track is appended to the list of the entry. *)
Definition _copy_track (vessel : TargetShip) (target : Targets) (track : Track)
    : Targets :=
  let target :=
    match target !! mmsi vessel with
    | None => <[ mmsi vessel := set_tracks vessel [] ]> target
    | Some _ => target
    end in
  alter (λ entry, set_tracks entry (tracks entry ++ [track])) (mmsi vessel) target.

Definition reject_track (self : Inspector) (vessel : TargetShip) (track : Track)
    : Inspector :=
  {| data := data self; recipe := recipe self;
     rejected := _copy_track vessel (rejected self) track;
     accepted := accepted self |}.

Definition accept_track (self : Inspector) (vessel : TargetShip) (track : Track)
    : Inspector :=
  {| data := data self; recipe := recipe self;
     rejected := rejected self;
     accepted := _copy_track vessel (accepted self) track |}.

(** The body of the inner loop of [_inspect_impl]; the state is the
    inspector and the counter [_n]. *)
Definition inspect_track (target_ship : TargetShip) (st : Inspector * Z)
    (track : Track) : result (Inspector * Z) :=
  let '(self, _n) := st in
  let _n := _n + 1 in
  let* reject := recipe self track in
  if reject then Ok (reject_track self target_ship track, _n)
  else Ok (accept_track self target_ship track, _n).

(** The two loops of [_inspect_impl] over the items of a dictionary. *)
Definition inspect_items (items : list (Z * TargetShip)) (st : Inspector * Z)
    : result (Inspector * Z) :=
  foldlM (λ st kv, foldlM (inspect_track kv.2) st (tracks kv.2)) st items.

(** [_inspect_impl] returns [self.accepted, self.rejected, _n]; the inspector
    it leaves behind is returned with them. The dictionary is walked in the
    order of [map_to_list]. *)
Definition _inspect_impl (self : Inspector) (targets : Targets)
    : result (Inspector * (Targets * Targets * Z)) :=
  let* (self, _n) := inspect_items (map_to_list targets) (self, 0) in
  Ok (self, (accepted self, rejected self, _n)).

(** [sum(len(r.tracks) for r in r.values())] *)
Definition count_tracks (targets : Targets) : Z :=
  foldr (λ kv n, Z.of_nat (length (tracks kv.2)) + n) 0 (map_to_list targets).

(** The branch [njobs == 1] of [Inspector.inspect]. *)
Definition inspect_sequential (self : Inspector)
    : result (Inspector * (Targets * Targets)) :=
  let* (self, (a, r, _n)) := _inspect_impl self (data self) in
  let n_rejected := count_tracks r in
  let* _ := print_rejection_rate n_rejected _n in
  Ok (self, (a, r)).

(** ** Collaborators for the worked examples *)

(** Modelled from the spec: [split.is_split_point] (pytsa/tsea/split.py is
    not among the sources), by the first disjunct the spec gives for it: the
    time gap between the two reports exceeds a maximum allowed gap. *)
Definition max_gap_split (max_tgap : float) (msg_t0 msg_t1 : AISMessage) : bool :=
  PrimFloat.ltb max_tgap (PrimFloat.sub (timestamp msg_t1) (timestamp msg_t0)).

(** Equality of two messages field by field. *)
Definition fields_eqb (a b : AISMessage) : bool :=
  (sender a =? sender b)
  && PrimFloat.eqb (timestamp a) (timestamp b)
  && PrimFloat.eqb (lat a) (lat b) && PrimFloat.eqb (lon a) (lon b)
  && PrimFloat.eqb (COG a) (COG b) && PrimFloat.eqb (SOG a) (SOG b).

(** Rows in ascending order of [timestamp], by insertion. *)
Fixpoint insert_row (r : Row) (df : DataFrame) : DataFrame :=
  match df with
  | [] => [r]
  | r' :: rest =>
      if row_timestamp r <=? row_timestamp r' then r :: df
      else r' :: insert_row r rest
  end.

Definition insertion_sort (df : DataFrame) : DataFrame :=
  foldr insert_row [] df.

(** Timestamps in whole seconds: both conversions give the number of
    seconds; tracks split at gaps above 1000 seconds. *)
Definition whole_seconds : Collaborators :=
  {| is_split_point := max_gap_split 1000;
     msg_eqb := fields_eqb;
     sort_values := insertion_sort;
     int_timestamp := λ ns, float_of_Z (ns `quot` 1000000000);
     pydatetime_timestamp :=
       λ ns, PrimFloat.div (float_of_Z (ns `quot` 1000)) 1000000 |}.

(** Reports of two vessels, out of order; vessel 111 is silent between
    100 and 5000 seconds. *)
Definition two_vessels : list Row :=
  [ {| row_mmsi := 111; row_timestamp := 5000 * 1000000000;
       row_lat := 56; row_lon := 8; row_speed := 10; row_course := 90 |};
    {| row_mmsi := 222; row_timestamp := 7 * 1000000000;
       row_lat := 55; row_lon := 7; row_speed := 4; row_course := 180 |};
    {| row_mmsi := 111; row_timestamp := 0;
       row_lat := 56; row_lon := 8; row_speed := 10; row_course := 90 |};
    {| row_mmsi := 111; row_timestamp := 100 * 1000000000;
       row_lat := 56; row_lon := 8; row_speed := 10; row_course := 90 |};
    {| row_mmsi := 222; row_timestamp := 8 * 1000000000;
       row_lat := 55; row_lon := 7; row_speed := 4; row_course := 180 |} ].

(** A query at [t] seconds. *)
Definition query_at (t : float) : TimePosition :=
  {| tpos_timestamp := t; tpos_lat := 56; tpos_lon := 8 |}.

(** A report of vessel [m] at [t] seconds. *)
Definition row_at (m : MMSI) (t : Z) : Row :=
  {| row_mmsi := m; row_timestamp := t * 1000000000;
     row_lat := 56; row_lon := 8; row_speed := 10; row_course := 90 |}.

Definition message_at (m : MMSI) (t : float) : AISMessage :=
  {| sender := m; timestamp := t; lat := 56; lon := 8; COG := 90; SOG := 10 |}.

(** Two reports an hour and one degree of latitude apart, both at 10 knots:
    the time-mean speed between them is 1 degree per hour. *)
Definition report_0 : AISMessage :=
  {| sender := 111; timestamp := 0; lat := 56; lon := 8; COG := 0; SOG := 10 |}.
Definition report_1 : AISMessage :=
  {| sender := 111; timestamp := 3600; lat := 57; lon := 8; COG := 0; SOG := 10 |}.

(** A C library whose [pow] is correctly rounded at the exponent 2. *)
Definition rounded_pow : Libm :=
  {| pow2 x := PrimFloat.mul x x; pow2_one := eq_refl; pow2_zero := eq_refl |}.

Definition vessel_with (trs : list (list AISMessage)) : TargetShip :=
  {| ts := None; mmsi := 111; ship_type := []; ship_length := length_array [];
     tracks := trs; shell := None |}.

(** What the sequential path returns for vessel 111 on reports at 0, 100 and
    5000 seconds and a query at 50 seconds. *)
Definition vessel_111 : TargetShip :=
  {| ts := Some 50%float; mmsi := 111; ship_type := [];
     ship_length := length_array [];
     tracks := [[message_at 111 0; message_at 111 100]];
     shell := Some (message_at 111 0, message_at 111 5000) |}.

(** One vessel with a track of one report and a track of two. *)
Definition mixed_vessel : Targets :=
  {[ 111 := vessel_with [[report_0]; [report_0; report_1]] ]}.

(** A recipe of one rule, [too_few_obs] with [n = 2]. *)
Definition fewer_than_two : Recipe :=
  {| funcs := [def_rule (λ track, Ok (too_few_obs track 2))] |}.

(** An interpolation that succeeds on the vessels that have a track. *)
Definition needs_a_track (mode : string) (tgt : TargetShip) : interpolation :=
  match tracks tgt with
  | [] => InterpolationError
  | _ => Interpolated tgt
  end.

Definition agent : SearchAgent :=
  {| static_msgs := []; max_tgt_ships := 200;
     _n_speed_correction := 0; _n_position_correction := 0 |}.

(** ** Definitions used to state the properties *)

(** A track with at least two reports. *)
Definition long : Track → Prop := λ track, (2 ≤ length track)%nat.

(** The tracks of vessel [m] in [targets]; none when [m] is not a key. *)
Definition tracks_of (targets : Targets) (m : MMSI) : list Track :=
  default [] (tracks <$> targets !! m).

(** Rows in ascending order of their timestamp. *)
Definition by_timestamp : relation Row :=
  λ a b, row_timestamp a ≤ row_timestamp b.

(** What [drop_duplicates(subset=[timestamp, MMSI])] leaves of a row. *)
Definition row_key (r : Row) : MMSI * Z := (row_mmsi r, row_timestamp r).

(** [srt] puts [df] in ascending order of timestamp. *)
Definition sorts (srt : DataFrame → DataFrame) (df : DataFrame) : Prop :=
  srt df ≡ₚ df ∧ Sorted by_timestamp (srt df).

(** All tracks of all vessels of a collection. *)
Definition all_tracks (targets : Targets) : list Track :=
  concat ((λ kv, tracks kv.2) <$> map_to_list targets).

(** Where the partition puts vessel [v]: the entry that receives its tracks
    with verdict [b], a copy of [v] holding just those tracks, and no entry
    when there is no such track. *)
Definition routed (verdict : Track → bool) (b : bool) (v : TargetShip)
    : option TargetShip :=
  match filter (λ track, verdict track = b) (tracks v) with
  | [] => None
  | trs => Some (set_tracks v trs)
  end.

(** The entry of [v] in a collection [base] that had none, once the tracks
    [trs] of [v] were routed there. *)
Definition with_entry (v : TargetShip) (trs : list (list AISMessage))
    (base : Targets) : Targets :=
  match trs with
  | [] => base
  | _ => <[ mmsi v := set_tracks v trs ]> base
  end.

(** A callable of which [inspect.signature] reports exactly one parameter,
    named [track] and annotated [list[AISMessage]], and the return annotation
    [bool]. *)
Definition well_signed (func : pyobject) : Prop :=
  callable func = true
  ∧ ∃ p, signature func = Ok {| parameters := [p]; return_annotation := bool_ |}
         ∧ name p = "track" ∧ p_annotation p = list_AISMessage.

(** A rule that returns [b] on every track. *)
Definition always (b : bool) : pyobject := def_rule (λ _, Ok b).

(** A length the static messages record for vessel [m]: bow and stern
    distance of one of its rows, added as [int64] numbers are. *)
Definition length_on_record (self : SearchAgent) (m : MMSI) (y : Z) : Prop :=
  ∃ r, r ∈ static_msgs self ∧ static_mmsi r = m
       ∧ int64 (static_to_bow r + static_to_stern r) = y.

(** The neighbours in a list: each element with the next. *)
Fixpoint adjacent {A} (l : list A) : list (A * A) :=
  match l with
  | a :: (b :: _) as rest => (a, b) :: adjacent rest
  | _ => []
  end.

(** The track spans the query time: its first report is before it and its
    last report after it. *)
Definition spans (tpos : TimePosition) (track : Track) : bool :=
  match head track, last track with
  | Some m0, Some m1 =>
      PrimFloat.ltb (timestamp m0) (tpos_timestamp tpos)
      && PrimFloat.ltb (tpos_timestamp tpos) (timestamp m1)
  | _, _ => false
  end.

(** Reports in order of time: no report is later than one behind it. *)
Definition in_time_order (track : Track) : Prop :=
  StronglySorted (λ a b, PrimFloat.leb (timestamp a) (timestamp b) = true) track.

(** The conversion [conv] of the timestamps of [df] to Unix time keeps their
    order. *)
Definition keeps_order (conv : Z → float) (df : DataFrame) : Prop :=
  ∀ r r', r ∈ df → r' ∈ df → row_timestamp r ≤ row_timestamp r' →
    PrimFloat.leb (conv (row_timestamp r)) (conv (row_timestamp r')) = true.

(** The exception [_check_signature] raises on an argument that is not well
    signed. *)
Definition signature_error (func : pyobject) : exn :=
  match func with
  | NonCallable => TypeError
  | Builtin _ => ValueError
  | Function sig _ | Described sig _ =>
      match parameters sig with
      | [p] => if decide (name p = "track") then TypeError else KeyError
      | _ => TypeError
      end
  end.

(** What [_interpolate_trajectories] leaves of a vessel. *)
Definition interpolated (interpolate : string → TargetShip → interpolation)
    (mode : string) (tgt : TargetShip) : option TargetShip :=
  match interpolate mode tgt with
  | Interpolated tgt => Some tgt
  | _ => None
  end.

Section segmentation.
Context `{Collaborators}.

(** Where the next report of a vessel goes: a new track at a split point,
    the current track otherwise. *)
Definition place (trs : list Track) (msg : AISMessage) : list Track :=
  match last trs with
  | Some t =>
      match last t with
      | Some m0 =>
          if is_split_point m0 msg then trs ++ [[msg]]
          else removelast trs ++ [t ++ [msg]]
      | None => trs
      end
  | None => trs
  end.

(** Tracks a report can be added to: there is a current track, and it has a
    last report. *)
Definition ready (trs : list Track) : Prop :=
  ∃ init t m, trs = init ++ [t ++ [m]].

(** The tracks of a vessel whose reports are [msgs], in this order. *)
Definition segment (msgs : list AISMessage) : list Track :=
  match msgs with
  | [] => []
  | msg :: rest => foldl place [[msg]] rest
  end.

(** [trs] cuts the reports [msgs] at the split points: the tracks, one after
    the other, are the reports; no track is empty; no two neighbours in a
    track are a split point; and the last report of a track and the first of
    the next are one. *)
Definition segmented (msgs : list AISMessage) (trs : list Track) : Prop :=
  concat trs = msgs
  ∧ Forall (λ t, t ≠ []) trs
  ∧ Forall (λ t, Forall (λ p, is_split_point p.1 p.2 = false) (adjacent t)) trs
  ∧ Forall (λ p, ∃ a b, last p.1 = Some a ∧ head p.2 = Some b
                        ∧ is_split_point a b = true) (adjacent trs).

(** A track of vessel [k] without a split point: every report was sent by
    [k], and no two neighbours are a split point. *)
Definition unsplit_track_of (k : MMSI) (track : Track) : Prop :=
  Forall (λ m, sender m = k) track
  ∧ Forall (λ p, is_split_point p.1 p.2 = false) (adjacent track).

(** The vessel [_sp_construct_target_vessels] holds for [m] while it walks
    the rows. *)
Definition sp_vessel (self : SearchAgent) (tpos : option TimePosition)
    (m : MMSI) (trs : list Track) : TargetShip :=
  {| ts := tpos_timestamp <$> tpos; mmsi := m;
     ship_type := _get_ship_type self m;
     ship_length := _get_ship_length self m;
     tracks := trs; shell := None |}.

(** The vessel [_impl_construct_target_vessel] returns for [m] when the row
    loop leaves the tracks [trs]. *)
Definition impl_vessel (self : SearchAgent) (m : MMSI) (trs : list Track)
    : TargetShip :=
  find_shell
    {| ts := None; mmsi := m;
       ship_type := _get_ship_type self m;
       ship_length := _get_ship_length self m;
       tracks := remove_short_in_place trs; shell := None |}.

(** The rows of vessel [m]. *)
Definition frame_of (m : MMSI) (df : DataFrame) : DataFrame :=
  filter (λ r, row_mmsi r = m) df.

End segmentation.

(** ** The order of the floats *)

(** The place of a number in the order of the floats: the sign class, then
    exponent and mantissa. *)
Definition rank (f : spec_float) : Z * Z * Z :=
  match f with
  | S754_nan => (0, 0, 0)
  | S754_infinity true => (-2, 0, 0)
  | S754_infinity false => (2, 0, 0)
  | S754_zero _ => (0, 0, 0)
  | S754_finite true m e => (-1, - e, - Z.pos m)
  | S754_finite false m e => (1, e, Z.pos m)
  end.

Definition rank_compare (a b : Z * Z * Z) : comparison :=
  match a.1.1 ?= b.1.1 with
  | Eq => match a.1.2 ?= b.1.2 with
          | Eq => a.2 ?= b.2
          | c => c
          end
  | c => c
  end.

(** [lo] and [hi] are the least and the greatest of [xs]: both are among
    [xs], and every one of [xs] is at least [lo] and at most [hi]. *)
Definition least_and_greatest (xs : list float) (lo hi : float) : Prop :=
  lo ∈ xs ∧ hi ∈ xs
  ∧ Forall (λ x, PrimFloat.leb lo x = true ∧ PrimFloat.leb x hi = true) xs.

(** * Properties *)

Section recipe.

Implicit Types (fs : list pyobject) (track : Track).

Lemma py_all_conjunction fs track bs :
  Forall2 (λ f b, call f track = Ok b) fs bs →
  py_all fs track = Ok (foldr andb true bs).
Proof.
  induction 1 as [|f b fs bs Hf _ IH]; simpl; [done|].
  rewrite Hf. simpl. destruct b; simpl; [exact IH|done].
Qed.

End recipe.

(** ** Static messages: ship type and ship length *)

Section static_facts.

Implicit Types (xs : list Z) (self : SearchAgent).

Lemma StronglySorted_remove_dups {A} `{EqDecision A} (R : relation A) (l : list A) :
  StronglySorted R l → StronglySorted R (remove_dups l).
Proof.
  induction 1 as [|x l _ IH Hx]; simpl; [constructor|].
  destruct (decide_rel elem_of x l); [done|].
  constructor; [done|]. rewrite Forall_forall in Hx |- *.
  intros y Hy. rewrite elem_of_remove_dups in Hy. auto.
Qed.

Lemma StronglySorted_le_lt xs :
  StronglySorted Z.le xs → NoDup xs → StronglySorted Z.lt xs.
Proof.
  induction 1 as [|x xs _ IH Hx]; [constructor|].
  rewrite NoDup_cons. intros [Hnew Hxs]. constructor; [auto|].
  rewrite Forall_forall in *. intros y Hy.
  assert (x ≠ y) by (by intros ->). specialize (Hx y Hy). lia.
Qed.

Lemma np_unique_sorted xs : StronglySorted Z.lt (np_unique xs).
Proof.
  unfold np_unique. apply StronglySorted_le_lt; [|apply NoDup_remove_dups].
  apply StronglySorted_remove_dups, StronglySorted_merge_sort; apply _.
Qed.

Lemma elem_of_np_unique x xs : x ∈ np_unique xs ↔ x ∈ xs.
Proof.
  unfold np_unique. by rewrite elem_of_remove_dups, merge_sort_Permutation.
Qed.

Lemma foldl_max_largest xs x :
  x ≤ foldl Z.max x xs
  ∧ Forall (λ y, y ≤ foldl Z.max x xs) xs
  ∧ (foldl Z.max x xs = x ∨ foldl Z.max x xs ∈ xs).
Proof.
  revert x. induction xs as [|y xs IH]; intros x; simpl.
  { split_and!; [lia|constructor|by left]. }
  destruct (IH (Z.max x y)) as (Hle & Hall & Hin). split_and!.
  - lia.
  - constructor; [lia|done].
  - destruct Hin as [->|Hin]; [|right; by right].
    destruct (Z.max_spec x y) as [[_ ->]|[_ ->]]; [right; by left|by left].
Qed.

(** [_get_ship_type] returns every ship type on record for the vessel, each
    once, in ascending order. *)
Theorem ship_type_all_on_record self (m : Z) :
  StronglySorted Z.lt (_get_ship_type self m)
  ∧ ∀ t, t ∈ _get_ship_type self m
         ↔ ∃ r, r ∈ static_msgs self ∧ static_mmsi r = m ∧ static_ship_type r = t.
Proof.
  unfold _get_ship_type. split; [apply np_unique_sorted|].
  intros t. rewrite elem_of_np_unique.
  change (map static_ship_type ?l) with (static_ship_type <$> l).
  rewrite list_elem_of_fmap. split.
  - intros (r & -> & [Hm Hr]%list_elem_of_filter). eauto.
  - intros (r & Hr & Hm & <-). exists r. split; [done|].
    by apply list_elem_of_filter.
Qed.

Lemma elem_of_lengths self (m : Z) y :
  y ∈ np_unique (map row_sum
                     (filter (λ r, static_mmsi r = m) (static_msgs self)))
  ↔ length_on_record self m y.
Proof.
  rewrite elem_of_np_unique.
  change (map ?f ?l) with (f <$> l).
  rewrite list_elem_of_fmap. unfold length_on_record. split.
  - intros (r & -> & [Hm Hr]%list_elem_of_filter). eauto.
  - intros (r & Hr & Hm & <-). exists r. split; [done|].
    by apply list_elem_of_filter.
Qed.

(** The sum of two [int64] numbers is their sum as integers when that lies
    in the range of the type, and wraps around otherwise. *)
Lemma int64_in_range (z : Z) : - 2 ^ 63 ≤ z < 2 ^ 63 → int64 z = z.
Proof. intros Hz. unfold int64. rewrite Z.mod_small; lia. Qed.

Lemma int64_range (z : Z) : - 2 ^ 63 ≤ int64 z < 2 ^ 63.
Proof.
  unfold int64. pose proof (Z.mod_pos_bound (z + 2 ^ 63) (2 ^ 64)). lia.
Qed.

Lemma int64_wraps : int64 (2 ^ 62 + 2 ^ 62) = - 2 ^ 63.
Proof. done. Qed.

(** [_get_ship_length]: a number, the largest length on record, when the
    static messages record two or more different lengths for the vessel; an
    array otherwise, empty when they record none and holding the one length
    they record. A length on record is the [int64] sum of a row's bow and
    stern distance. *)
Theorem ship_length_largest_on_record self (m : Z) :
  match _get_ship_length self m with
  | length_scalar x =>
      length_on_record self m x
      ∧ (∀ y, length_on_record self m y → y ≤ x)
      ∧ ∃ y, length_on_record self m y ∧ y ≠ x
  | length_array xs =>
      (xs = [] ∧ ∀ y, ¬ length_on_record self m y)
      ∨ ∃ x, xs = [x] ∧ ∀ y, length_on_record self m y ↔ y = x
  end.
Proof.
  unfold _get_ship_length. cbv zeta.
  pose proof (elem_of_lengths self m) as Hrec.
  pose proof (np_unique_sorted
                (map row_sum
                     (filter (λ r, static_mmsi r = m) (static_msgs self)))) as Hsorted.
  destruct (np_unique _) as [|x [|x' sl]] eqn:Hsl.
  - left. split; [done|]. intros y Hy%Hrec. by apply elem_of_nil in Hy.
  - right. exists x. split; [done|]. intros y. rewrite <- Hrec.
    by rewrite list_elem_of_singleton.
  - destruct (foldl_max_largest (x :: x' :: sl) x) as (_ & Hall & Hin).
    split_and!.
    + apply Hrec. destruct Hin as [->|Hin]; [by left|done].
    + intros y Hy%Hrec. rewrite Forall_forall in Hall. auto.
    + apply StronglySorted_inv in Hsorted as [_ Hlt].
      apply Forall_inv in Hlt.
      destruct (decide (foldl Z.max x (x :: x' :: sl) = x)) as [Heq|Hne].
      * exists x'. rewrite <- Hrec. split; [by right; left|]. rewrite Heq. lia.
      * exists x. rewrite <- Hrec. split; [by left|]. done.
Qed.

End static_facts.

(** ** The post-pass of the parallel path *)

Section post_pass.
Context `{Collaborators}.

Implicit Types (trs : list Track) (track : Track).

Lemma track_eqb_length x t : track_eqb x t = true → length x = length t.
Proof.
  revert t. induction x as [|a x IH]; intros [|b t]; simpl; try done.
  intros [_ Hxt]%andb_prop. f_equal. auto.
Qed.

Lemma list_remove_length i track trs :
  trs !! i = Some track → S (length (list_remove i track trs)) = length trs.
Proof.
  revert i. induction trs as [|x r IH]; intros [|i]; simpl; try done.
  intros Hi. destruct (track_eqb x track); simpl; [done|].
  f_equal. by apply IH.
Qed.

(** Removing a short track takes away a short track: the long ones stay, in
    their order. *)
Lemma list_remove_long i track trs :
  trs !! i = Some track → ¬ long track →
  filter long (list_remove i track trs) = filter long trs.
Proof.
  unfold long. revert i.
  induction trs as [|x r IH]; intros [|i]; simpl; try done.
  - intros [= ->] Hshort. by rewrite filter_cons_False.
  - intros Hi Hshort. destruct (track_eqb x track) eqn:Heq.
    + apply track_eqb_length in Heq.
      rewrite filter_cons_False; [done|]. by rewrite Heq.
    + rewrite !filter_cons. rewrite (IH i Hi Hshort). done.
Qed.

Lemma remove_loop_long fuel i trs :
  filter long (remove_loop fuel i trs) = filter long trs.
Proof.
  revert i trs. induction fuel as [|fuel IH]; intros i trs; simpl; [done|].
  destruct (trs !! i) as [track|] eqn:Hi; [|done].
  destruct (Nat.ltb_spec (length track) 2) as [Hshort|Hlong].
  - rewrite IH. apply list_remove_long; [done|]. unfold long. lia.
  - apply IH.
Qed.

(** The loop ends: once the fuel covers what is left of the list, more fuel
    changes nothing. *)
Lemma remove_loop_enough fuel fuel' i trs :
  (length trs ≤ i + fuel)%nat → (fuel ≤ fuel')%nat →
  remove_loop fuel' i trs = remove_loop fuel i trs.
Proof.
  revert fuel' i trs. induction fuel as [|fuel IH]; intros fuel' i trs Hlen Hle.
  - simpl. destruct fuel' as [|fuel']; simpl; [done|].
    rewrite lookup_ge_None_2; [done|lia].
  - destruct fuel' as [|fuel']; [lia|]. simpl.
    destruct (trs !! i) as [track|] eqn:Hi; [|done].
    pose proof (list_remove_length i track trs Hi) as Hrm.
    destruct (length track <? 2)%nat; apply IH; lia.
Qed.

Lemma remove_short_in_place_long trs :
  filter long (remove_short_in_place trs) = filter long trs.
Proof. apply remove_loop_long. Qed.

(** The post-pass of the parallel path ends within as many iterations as the
    list has tracks, and the tracks of two reports or more come out of it as
    they went in. *)
Theorem post_pass_keeps_long_tracks trs (extra : nat) :
  remove_loop (length trs + extra) 0 trs = remove_short_in_place trs
  ∧ filter long (remove_short_in_place trs) = filter long trs.
Proof.
  split; [|apply remove_loop_long].
  apply remove_loop_enough; lia.
Qed.

End post_pass.

(** ** The post-pass when short tracks are apart *)

Section post_pass_exact.
Context `{Collaborators}.

Implicit Types (trs pre suf : list (list AISMessage)) (track : list AISMessage).

Lemma track_eqb_long x track : long x → ¬ long track → track_eqb x track = false.
Proof.
  intros Hx Htrack. destruct (track_eqb x track) eqn:Heq; [|done].
  apply track_eqb_length in Heq. unfold long in *. lia.
Qed.

(** A short track behind long ones is the one [remove] takes out. *)
Lemma list_remove_behind_long pre track suf :
  Forall long pre → ¬ long track →
  list_remove (length pre) track (pre ++ track :: suf) = pre ++ suf.
Proof.
  intros Hpre Htrack. induction Hpre as [|x pre Hx _ IH]; [done|].
  simpl. rewrite track_eqb_long by done. by rewrite IH.
Qed.

Lemma remove_loop_past_end fuel i trs :
  (length trs ≤ i)%nat → remove_loop fuel i trs = trs.
Proof.
  intros Hlen. destruct fuel as [|fuel]; [done|]. simpl.
  by rewrite lookup_ge_None_2.
Qed.

Lemma remove_loop_behind_long fuel pre suf :
  Forall long pre →
  Forall (λ p, long p.1 ∨ long p.2) (adjacent suf) →
  (length suf ≤ fuel)%nat →
  remove_loop fuel (length pre) (pre ++ suf) = pre ++ filter long suf.
Proof.
  revert pre suf. induction fuel as [|fuel IH]; intros pre suf Hpre Hsuf Hlen.
  { destruct suf; [done|simpl in Hlen; lia]. }
  destruct suf as [|track rest].
  { rewrite remove_loop_past_end; [done|]. rewrite length_app. simpl. lia. }
  cbn [remove_loop]. rewrite lookup_app_r, Nat.sub_diag by done. cbn [lookup list_lookup].
  simpl in Hlen. rewrite filter_cons.
  destruct (Nat.ltb_spec (length track) 2) as [Hshort|Hlong].
  - rewrite decide_False by (unfold long; lia).
    rewrite list_remove_behind_long by (done || unfold long; lia).
    destruct rest as [|next rest].
    { rewrite remove_loop_past_end; [done|]. rewrite length_app. simpl. lia. }
    apply Forall_cons in Hsuf as [[Hl|Hnext] Hrest]; simpl in *.
    { unfold long in Hl. lia. }
    rewrite filter_cons_True by done.
    rewrite (cons_middle next pre rest), app_assoc.
    replace (S (length pre)) with (length (pre ++ [next]))
      by (rewrite length_app; simpl; lia).
    rewrite IH; [by rewrite <- app_assoc| | |lia].
    + apply Forall_app. by split; [|repeat constructor].
    + destruct rest; [constructor|]. by apply Forall_cons in Hrest as [_ ?].
  - rewrite decide_True by (unfold long; lia).
    rewrite (cons_middle track pre rest), app_assoc.
    replace (S (length pre)) with (length (pre ++ [track]))
      by (rewrite length_app; simpl; lia).
    rewrite IH; [by rewrite <- app_assoc| | |lia].
    + apply Forall_app. split; [done|]. repeat constructor. unfold long. lia.
    + destruct rest; [constructor|]. by apply Forall_cons in Hsuf as [_ ?].
Qed.

Lemma remove_short_in_place_exact trs :
  Forall (λ p, long p.1 ∨ long p.2) (adjacent trs) →
  remove_short_in_place trs = filter long trs.
Proof.
  intros Hadj. apply (remove_loop_behind_long (length trs) [] trs); [constructor|done|lia].
Qed.

(** A short track the iterator has passed stays, or another short track
    takes its place, when [remove] takes out a short track. *)
Lemma list_remove_keeps_short i track trs :
  trs !! i = Some track → ¬ long track →
  Exists (λ t, ¬ long t) (take i trs) →
  Exists (λ t, ¬ long t) (take (S i) (list_remove i track trs)).
Proof.
  revert i. induction trs as [|x trs IH]; intros [|i]; simpl; try done.
  { intros _ _ Hnil. by apply Exists_nil in Hnil. }
  intros Hi Hshort Hpassed. destruct (track_eqb x track).
  - apply Exists_exists. exists track. split; [|done].
    apply (list_elem_of_lookup_2 _ i). rewrite lookup_take_lt by lia. done.
  - apply Exists_cons in Hpassed as [Hx|Hpassed]; [by left|].
    right. by apply IH.
Qed.

Lemma remove_loop_keeps_short fuel i trs :
  Exists (λ t, ¬ long t) (take i trs) →
  Exists (λ t, ¬ long t) (remove_loop fuel i trs).
Proof.
  revert i trs. induction fuel as [|fuel IH]; intros i trs Hpassed.
  { simpl. rewrite <- (take_drop i trs). apply Exists_app. by left. }
  simpl. destruct (trs !! i) as [track|] eqn:Hi.
  2:{ rewrite <- (take_drop i trs). apply Exists_app. by left. }
  destruct (Nat.ltb_spec (length track) 2) as [Hshort|Hlong].
  - apply IH. apply list_remove_keeps_short; [done| |done]. unfold long. lia.
  - apply IH. rewrite (take_S_r _ _ _ Hi). apply Exists_app. by left.
Qed.

(** Where two short tracks are neighbours, the second is passed over. *)
Lemma remove_loop_skips fuel pre suf :
  Forall long pre →
  Exists (λ p, ¬ long p.1 ∧ ¬ long p.2) (adjacent suf) →
  (length suf ≤ fuel)%nat →
  Exists (λ t, ¬ long t) (remove_loop fuel (length pre) (pre ++ suf)).
Proof.
  revert pre suf. induction fuel as [|fuel IH]; intros pre suf Hpre Hpair Hlen.
  { destruct suf; [by apply Exists_nil in Hpair|simpl in Hlen; lia]. }
  destruct suf as [|track [|next rest]]; [by apply Exists_nil in Hpair..|].
  cbn [remove_loop]. rewrite lookup_app_r, Nat.sub_diag by done. cbn [lookup list_lookup].
  simpl in Hlen.
  change (adjacent (track :: next :: rest))
    with ((track, next) :: adjacent (next :: rest)) in Hpair.
  destruct (Nat.ltb_spec (length track) 2) as [Hshort|Hlong].
  - rewrite list_remove_behind_long by (done || unfold long; lia).
    destruct (decide (long next)) as [Hnext|Hnext].
    + apply Exists_cons in Hpair as [[_ ?]|Hpair]; [done|].
      destruct rest as [|next' rest]; [by apply Exists_nil in Hpair|].
      change (adjacent (next :: next' :: rest))
        with ((next, next') :: adjacent (next' :: rest)) in Hpair.
      apply Exists_cons in Hpair as [[? _]|Hpair]; [done|].
      rewrite (cons_middle next pre (next' :: rest)), app_assoc.
      replace (S (length pre)) with (length (pre ++ [next]))
        by (rewrite length_app; simpl; lia).
      apply IH; [|done|simpl in *; lia].
      apply Forall_app. by split; [|repeat constructor].
    + apply remove_loop_keeps_short.
      rewrite (cons_middle next pre rest), app_assoc.
      rewrite take_app_length'; [|rewrite length_app; simpl; lia].
      apply Exists_app. right. by left.
  - apply Exists_cons in Hpair as [[Htrack _]|Hpair].
    { destruct Htrack. unfold long. simpl. lia. }
    rewrite (cons_middle track pre (next :: rest)), app_assoc.
    replace (S (length pre)) with (length (pre ++ [track]))
      by (rewrite length_app; simpl; lia).
    apply IH; [|done|simpl; lia].
    apply Forall_app. split; [done|]. repeat constructor. unfold long. lia.
Qed.

Lemma remove_short_in_place_apart trs :
  Forall long (remove_short_in_place trs) →
  Forall (λ p, long p.1 ∨ long p.2) (adjacent trs).
Proof.
  intros Hlong.
  destruct (Forall_Exists_dec (λ p : list AISMessage * list AISMessage,
                                 long p.1 ∨ long p.2)
              (λ p, ¬ long p.1 ∧ ¬ long p.2)
              (λ p, match decide (long p.1 ∨ long p.2) with
                    | left Hp => left Hp
                    | right Hp => right (conj (λ H1, Hp (or_introl H1))
                                              (λ H2, Hp (or_intror H2)))
                    end)
              (adjacent trs)) as [Hall|Hpair]; [done|].
  apply (remove_loop_skips (length trs) [] trs) in Hpair; [|constructor|lia].
  apply Exists_exists in Hpair as (track & Htrack & Hshort).
  rewrite Forall_forall in Hlong. destruct Hshort. by apply Hlong.
Qed.

Lemma filter_long_long trs : Forall long (filter long trs).
Proof. apply Forall_forall. by intros track [? _]%list_elem_of_filter. Qed.

(** When the post-pass of the parallel path does its work: it leaves no
    track of fewer than two reports exactly when no two such tracks are
    neighbours, and exactly then what it leaves are the tracks of two reports
    or more, in their order. *)
Theorem post_pass_exact_iff_short_tracks_apart trs :
  (Forall long (remove_short_in_place trs)
   ↔ Forall (λ p, long p.1 ∨ long p.2) (adjacent trs))
  ∧ (remove_short_in_place trs = filter long trs
     ↔ Forall (λ p, long p.1 ∨ long p.2) (adjacent trs)).
Proof.
  split; split.
  - apply remove_short_in_place_apart.
  - intros Hadj. rewrite remove_short_in_place_exact by done.
    apply filter_long_long.
  - intros Heq. apply remove_short_in_place_apart. rewrite Heq.
    apply filter_long_long.
  - apply remove_short_in_place_exact.
Qed.

End post_pass_exact.

(** ** Segmentation: what the two row loops build *)

Section segmentation_facts.
Context `{Collaborators}.

Implicit Types (trs init : list Track) (t : Track) (msg m : AISMessage).

Local Arguments segment : simpl never.
Local Arguments place : simpl never.

Lemma foldlM_app {S A} (body : S → A → result S) s l1 l2 :
  foldlM body s (l1 ++ l2) = let* s' := foldlM body s l1 in foldlM body s' l2.
Proof.
  revert s. induction l1 as [|x l1 IH]; intros s; simpl; [done|].
  destruct (body s x); simpl; auto.
Qed.

Lemma last_message_snoc init t m : last_message (init ++ [t ++ [m]]) = Ok m.
Proof. unfold last_message, py_last. rewrite last_snoc. simpl. by rewrite last_snoc. Qed.

Lemma append_to_last_snoc init t msg :
  append_to_last msg (init ++ [t]) = Ok (init ++ [t ++ [msg]]).
Proof. unfold append_to_last. by rewrite last_snoc, removelast_last. Qed.

Lemma place_snoc init t m msg :
  place (init ++ [t ++ [m]]) msg =
  if is_split_point m msg then (init ++ [t ++ [m]]) ++ [[msg]]
  else init ++ [(t ++ [m]) ++ [msg]].
Proof. unfold place. by rewrite last_snoc, last_snoc, removelast_last. Qed.

Lemma place_ready trs msg : ready trs → ready (place trs msg).
Proof.
  intros (init & t & m & ->). rewrite place_snoc.
  destruct (is_split_point m msg).
  - by exists (init ++ [t ++ [m]]), [], msg.
  - by exists init, (t ++ [m]), msg.
Qed.

Lemma foldl_place_ready trs msgs : ready trs → ready (foldl place trs msgs).
Proof.
  revert trs. induction msgs as [|msg msgs IH]; intros trs Htrs; simpl; [done|].
  by apply IH, place_ready.
Qed.

Lemma segment_ready msg rest : ready (segment (msg :: rest)).
Proof. apply foldl_place_ready. by exists [], [], msg. Qed.

Lemma segment_snoc msg0 rest msg :
  segment ((msg0 :: rest) ++ [msg]) = place (segment (msg0 :: rest)) msg.
Proof. unfold segment. simpl. by rewrite foldl_app. Qed.

(** The row loop of the parallel path, after its first row. *)
Lemma impl_step_ready M trs row :
  ready trs →
  impl_step M false (trs, false) row = Ok (place trs (impl_message M row), false).
Proof.
  intros (init & t & m & ->). unfold impl_step. simpl.
  rewrite last_message_snoc, place_snoc. simpl.
  destruct (is_split_point m (impl_message M row)).
  - by rewrite append_to_last_snoc.
  - by rewrite append_to_last_snoc.
Qed.

Lemma impl_loop_ready M trs rows :
  ready trs →
  foldlM (impl_step M false) (trs, false) rows
  = Ok (foldl place trs (impl_message M <$> rows), false).
Proof.
  revert trs. induction rows as [|row rows IH]; intros trs Htrs; [done|].
  cbn [foldlM]. rewrite impl_step_ready by done. by apply IH, place_ready.
Qed.

Lemma impl_loop M row rows :
  foldlM (impl_step M false) ([[]], true) (row :: rows)
  = Ok (segment (impl_message M <$> row :: rows), false).
Proof.
  cbn [foldlM impl_step]. unfold append_to_last. cbn [last removelast bind app].
  apply impl_loop_ready. by exists [], [], (impl_message M row).
Qed.

(** The row loop of the sequential path: every vessel seen so far holds the
    segmentation of its own rows. *)
Lemma sp_loop self tpos rows :
  ∃ targets : Targets,
    foldlM (sp_step self tpos) ∅ rows = Ok targets ∧
    ∀ k : MMSI, targets !! k =
         match frame_of k rows with
         | [] => None
         | frame => Some (sp_vessel self tpos k (segment (sp_message <$> frame)))
         end.
Proof.
  induction rows as [|row rows IH] using rev_ind.
  { exists ∅. split; [done|]. intros k. by rewrite lookup_empty. }
  destruct IH as (targets & Hrun & Hspec).
  rewrite foldlM_app, Hrun. simpl. unfold sp_step.
  pose proof (Hspec (row_mmsi row)) as Hrow.
  destruct (frame_of (row_mmsi row) rows) as [|r0 fr] eqn:Hfr.
  - rewrite Hrow. simpl. eexists. split; [done|]. intros k.
    unfold frame_of in *. rewrite filter_app, filter_cons, filter_nil.
    destruct (decide (row_mmsi row = k)) as [<-|Hne].
    + by rewrite lookup_insert_eq, Hfr.
    + rewrite lookup_insert_ne, app_nil_r by done. apply Hspec.
  - destruct (segment_ready (sp_message r0) (sp_message <$> fr))
      as (init & t & m0 & Hseg).
    change (sp_message r0 :: (sp_message <$> fr)) with (sp_message <$> r0 :: fr) in Hseg.
    assert (∀ k, frame_of k (rows ++ [row])
                 = frame_of k rows ++ (if decide (row_mmsi row = k) then [row] else []))
      as Hsnoc.
    { intros k. unfold frame_of. rewrite filter_app, filter_cons, filter_nil.
      by destruct (decide (row_mmsi row = k)). }
    assert (segment (sp_message <$> (r0 :: fr) ++ [row])
            = place (init ++ [t ++ [m0]]) (sp_message row)) as Hplace.
    { rewrite fmap_app, <- Hseg. apply (segment_snoc (sp_message r0)). }
    rewrite place_snoc in Hplace.
    rewrite Hseg in Hrow. rewrite Hrow. cbn [bind tracks sp_vessel].
    rewrite last_message_snoc. cbn [bind].
    destruct (is_split_point m0 (sp_message row)); rewrite append_to_last_snoc;
      cbn [bind]; (eexists; split; [done|]); intros k; rewrite Hsnoc;
      (destruct (decide (row_mmsi row = k)) as [<-|Hne];
       [ rewrite lookup_insert_eq, Hfr; cbn [app];
         apply (f_equal (λ x, Some (sp_vessel self tpos (row_mmsi row) x)));
         symmetry; exact Hplace
       | rewrite lookup_insert_ne, app_nil_r by done; apply Hspec ]).
Qed.

End segmentation_facts.

(** ** The tracks are the reports, cut at the split points *)

Section segmented_facts.
Context `{Collaborators}.

Implicit Types (trs init : list (list AISMessage)) (t : list AISMessage)
  (msg m : AISMessage).

Local Arguments segment : simpl never.
Local Arguments place : simpl never.

Lemma adjacent_snoc {A} (l : list A) (x : A) :
  adjacent (l ++ [x])
  = adjacent l ++ match last l with Some a => [(a, x)] | None => [] end.
Proof.
  induction l as [|a l IH]; [done|].
  destruct l as [|b l]; [done|].
  change (adjacent ((a :: b :: l) ++ [x])) with ((a, b) :: adjacent ((b :: l) ++ [x])).
  rewrite IH. done.
Qed.

Lemma segmented_place msgs init t m msg :
  segmented msgs (init ++ [t ++ [m]]) →
  segmented (msgs ++ [msg]) (place (init ++ [t ++ [m]]) msg).
Proof.
  intros (Hcat & Hne & Hin & Hcut). rewrite place_snoc.
  destruct (is_split_point m msg) eqn:Hsplit.
  - split_and!.
    + rewrite concat_app, Hcat. simpl. by rewrite ?app_nil_r.
    + apply Forall_app. split; [done|]. by repeat constructor.
    + apply Forall_app. split; [done|]. by repeat constructor.
    + rewrite adjacent_snoc, last_snoc. apply Forall_app. split; [done|].
      repeat constructor. exists m, msg. simpl. by rewrite last_snoc.
  - rewrite concat_app in Hcat. simpl in Hcat. rewrite ?app_nil_r in Hcat.
    apply Forall_app in Hne as [Hne _].
    apply Forall_app in Hin as [Hin Ht%Forall_inv].
    rewrite adjacent_snoc in Hcut. apply Forall_app in Hcut as [Hcut Hlast].
    split_and!.
    + rewrite concat_app. simpl. by rewrite ?app_nil_r, <- Hcat, !app_assoc.
    + apply Forall_app. split; [done|]. repeat constructor. by destruct t.
    + apply Forall_app. split; [done|]. repeat constructor.
      rewrite adjacent_snoc, last_snoc. apply Forall_app. split; [done|].
      by repeat constructor.
    + rewrite adjacent_snoc. apply Forall_app. split; [done|].
      destruct (last init) as [t0|]; [|constructor].
      apply Forall_inv in Hlast as (a & b & Ha & Hb & Hab).
      repeat constructor. exists a, b. split_and!; [done| |done].
      simpl in *. by destruct t.
Qed.

(** The tracks the row loops build cut the reports at the split points. *)
Lemma segment_segmented msgs : segmented msgs (segment msgs).
Proof.
  induction msgs as [|msg msgs IH] using rev_ind.
  { by split_and!; constructor. }
  destruct msgs as [|msg0 msgs].
  { split_and!; by repeat constructor. }
  rewrite (segment_snoc msg0 msgs msg).
  destruct (segment_ready msg0 msgs) as (init & t & m & Hseg).
  rewrite Hseg in IH |- *. by apply segmented_place.
Qed.

Lemma head_snoc_snoc {A} (l : list A) (x y : A) :
  head ((l ++ [x]) ++ [y]) = head (l ++ [x]).
Proof. by destruct l. Qed.

(** There is one way to cut reports at the split points. *)
Lemma segmented_unique msgs trs : segmented msgs trs → trs = segment msgs.
Proof.
  revert trs. induction msgs as [|msg msgs IH] using rev_ind; intros trs.
  { intros (Hcat & Hne & _). destruct trs as [|t trs]; [done|].
    apply Forall_inv in Hne. destruct t; [done|]. done. }
  intros (Hcat & Hne & Hin & Hcut).
  destruct trs as [|tl init _] using rev_ind.
  { by destruct msgs. }
  rewrite concat_app in Hcat. simpl in Hcat. rewrite ?app_nil_r in Hcat.
  apply Forall_app in Hne as [Hne Htl%Forall_inv].
  apply Forall_app in Hin as [Hin Hintl%Forall_inv].
  rewrite adjacent_snoc in Hcut. apply Forall_app in Hcut as [Hcut Hlast].
  destruct tl as [|x t' _] using rev_ind; [done|]. clear Htl.
  rewrite app_assoc in Hcat. apply app_inj_tail in Hcat as [Hcat ->].
  destruct t' as [|m0 t _] using rev_ind.
  - (* the last report is a track of its own *)
    rewrite app_nil_r in Hcat. simpl.
    assert (init = segment msgs) as Hinit.
    { apply IH. by split_and!. }
    destruct msgs as [|msg0 msgs].
    { destruct init as [|t0 init]; [done|].
      apply Forall_inv in Hne. by destruct t0. }
    rewrite (segment_snoc msg0 msgs msg), <- Hinit.
    destruct init as [|tl init' _] using rev_ind; [done|].
    rewrite last_snoc in Hlast.
    apply Forall_inv in Hlast as (a & b & Ha & [= <-] & Hab). simpl in Ha.
    apply Forall_app in Hne as [_ Htl%Forall_inv].
    destruct tl as [|a' t _] using rev_ind; [done|].
    rewrite last_snoc in Ha. injection Ha as ->.
    by rewrite place_snoc, Hab.
  - (* the last report goes on the last track *)
    rewrite adjacent_snoc, last_snoc in Hintl.
    apply Forall_app in Hintl as [Hintl Hpair%Forall_inv]. simpl in Hpair.
    assert (init ++ [t ++ [m0]] = segment msgs) as Hinit.
    { apply IH. split_and!.
      - rewrite concat_app. simpl. by rewrite ?app_nil_r.
      - apply Forall_app. split; [done|]. repeat constructor. by destruct t.
      - apply Forall_app. split; [done|]. by repeat constructor.
      - rewrite adjacent_snoc. apply Forall_app. split; [done|].
        destruct (last init) as [t0|]; [|constructor].
        apply Forall_inv in Hlast as (a & b & Ha & Hb & Hab).
        repeat constructor. exists a, b. split_and!; [done| |done].
        simpl in *. by rewrite head_snoc_snoc in Hb. }
    destruct msgs as [|msg0 msgs].
    { destruct init; destruct t; done. }
    by rewrite (segment_snoc msg0 msgs msg), <- Hinit, place_snoc, Hpair.
Qed.

End segmented_facts.

(** ** The two construction paths, vessel by vessel *)

Section construction_facts.
Context `{Collaborators}.

Implicit Types (df frame : DataFrame) (k : MMSI).

Local Arguments segment : simpl never.

Lemma filter_none {A} (P : A → Prop) `{∀ x, Decision (P x)} (l : list A) :
  Forall (λ x, ¬ P x) l → filter P l = [].
Proof.
  induction 1 as [|x l Hx _ IH]; [done|]. by rewrite filter_cons_False.
Qed.

Lemma elem_of_pd_unique x xs : x ∈ pd_unique xs ↔ x ∈ xs.
Proof.
  induction xs as [|y xs IH]; simpl; [done|].
  rewrite !elem_of_cons, list_elem_of_filter, IH.
  destruct (decide (x = y)); tauto.
Qed.

Lemma pd_unique_constant k xs :
  xs ≠ [] → Forall (λ x, x = k) xs → pd_unique xs = [k].
Proof.
  intros Hne Hall. destruct Hall as [|x xs -> Hall]; [done|]. simpl. f_equal.
  apply filter_none, Forall_forall. intros y Hy Hyk.
  rewrite elem_of_pd_unique in Hy. rewrite Forall_forall in Hall.
  by apply Hyk, Hall.
Qed.

Lemma frame_of_mmsi k df : Forall (λ r, row_mmsi r = k) (frame_of k df).
Proof. apply Forall_forall. by intros r [? _]%list_elem_of_filter. Qed.

Lemma frame_of_nonempty k df : k ∈ row_mmsi <$> df → frame_of k df ≠ [].
Proof.
  intros (r & -> & Hr)%list_elem_of_fmap Hnil.
  by apply (filter_nil_not_elem_of _ _ r) in Hnil.
Qed.

Lemma frame_of_empty k df : k ∉ row_mmsi <$> df → frame_of k df = [].
Proof.
  intros Hk. apply filter_none, Forall_forall. intros r Hr <-.
  apply Hk, list_elem_of_fmap. eauto.
Qed.

Lemma frame_of_unique k df :
  k ∈ row_mmsi <$> df → pd_unique (row_mmsi <$> frame_of k df) = [k].
Proof.
  intros Hk. apply pd_unique_constant.
  - intros Hnil%fmap_nil_inv. by apply (frame_of_nonempty k df).
  - apply Forall_fmap. apply frame_of_mmsi.
Qed.

(** One vessel of the parallel path. *)
Lemma impl_construct self frame k :
  pd_unique (row_mmsi <$> frame) = [k] → sort_values frame ≠ [] →
  _impl_construct_target_vessel self frame false
  = Ok {[ k := impl_vessel self k (segment (impl_message k <$> sort_values frame)) ]}.
Proof.
  intros Hk Hsorted. unfold _impl_construct_target_vessel.
  change (map row_mmsi frame) with (row_mmsi <$> frame). rewrite Hk.
  cbn [length Nat.eqb py_assert py_first bind tracks].
  destruct (sort_values frame) as [|row rows] eqn:Hrows; [done|].
  rewrite impl_loop. done.
Qed.

Lemma mapM_Ok {A B} (f : A → result B) (g : A → B) (l : list A) :
  Forall (λ x, f x = Ok (g x)) l → mapM f l = Ok (g <$> l).
Proof.
  induction 1 as [|x l Hx _ IH]; [done|].
  simpl. rewrite Hx. simpl. by rewrite IH.
Qed.

(** [targets.update(res)] over one-vessel results keyed by [ks]. *)
Lemma lookup_updates (f : MMSI → TargetShip) (ks : list MMSI) (acc : Targets) k :
  foldl (λ (targets res : Targets), res ∪ targets) acc ((λ j, {[ j := f j ]}) <$> ks) !! k
  = if decide (k ∈ ks) then Some (f k) else acc !! k.
Proof.
  revert acc. induction ks as [|j ks IH]; intros acc; simpl; [done|].
  rewrite IH. destruct (decide (k ∈ ks)) as [Hin|Hout].
  - rewrite decide_True; [done|]. by right.
  - rewrite lookup_union. destruct (decide (j = k)) as [->|Hne].
    + rewrite lookup_singleton_eq, decide_True by left.
      by destruct (acc !! k).
    + rewrite lookup_singleton_ne by done.
      rewrite decide_False; [by destruct (acc !! k)|].
      intros [->|?]%elem_of_cons; done.
Qed.

Lemma mp_construct self df njobs :
  1 < njobs →
  (∀ k, sort_values (frame_of k df) ≡ₚ frame_of k df) →
  ∃ targets : Targets,
    _mp_construct_target_vessels self df njobs false = Ok targets ∧
    ∀ k, targets !! k =
         if decide (k ∈ row_mmsi <$> df)
         then Some (impl_vessel self k
                      (segment (impl_message k <$> sort_values (frame_of k df))))
         else None.
Proof.
  intros Hjobs Hperm. unfold _mp_construct_target_vessels, _distribute.
  destruct (Z.ltb_spec njobs 1) as [?|_]; [lia|]. cbn [bind].
  set (f := λ k, impl_vessel self k
                   (segment (impl_message k <$> sort_values (frame_of k df)))).
  rewrite (mapM_Ok _ (λ frame, match pd_unique (row_mmsi <$> frame) with
                               | k :: _ => {[ k := f k ]}
                               | [] => ∅
                               end)).
  2:{ apply Forall_fmap, Forall_forall. intros k Hk. simpl.
      rewrite elem_of_pd_unique in Hk.
      change (filter (λ r, row_mmsi r = k) df) with (frame_of k df).
      rewrite frame_of_unique by done. apply impl_construct.
      - by apply frame_of_unique.
      - intros Hnil. apply (frame_of_nonempty k df Hk).
        apply Permutation_nil. by rewrite <- Hperm, Hnil. }
  cbn [bind]. eexists. split; [done|]. intros k.
  rewrite <- list_fmap_compose.
  rewrite (list_fmap_ext _ (λ j, {[ j := f j ]}) (pd_unique (map row_mmsi df))).
  2:{ intros i j Hj. simpl.
      change (filter (λ r, row_mmsi r = j) df) with (frame_of j df).
      rewrite frame_of_unique; [done|].
      apply elem_of_pd_unique. by eapply list_elem_of_lookup_2. }
  rewrite lookup_updates, lookup_empty.
  destruct (decide (k ∈ pd_unique (map row_mmsi df))) as [Hin|Hout];
    rewrite elem_of_pd_unique in *.
  - by rewrite decide_True.
  - by rewrite decide_False.
Qed.

Lemma lookup_remove_single_obs (targets : Targets) k :
  _remove_single_obs targets !! k
  = (λ tgt, set_tracks tgt (filter long (tracks tgt))) <$> targets !! k.
Proof. unfold _remove_single_obs. by rewrite lookup_fmap. Qed.

Lemma sp_construct self df tpos :
  ∃ targets : Targets,
    _sp_construct_target_vessels self df tpos false = Ok targets ∧
    ∀ k, tracks <$> targets !! k =
         match frame_of k (sort_values df) with
         | [] => None
         | frame => Some (filter long (segment (sp_message <$> frame)))
         end.
Proof.
  unfold _sp_construct_target_vessels.
  destruct (sp_loop self tpos (sort_values df)) as (targets & -> & Hspec).
  cbn [bind]. eexists. split; [done|]. intros k.
  rewrite lookup_remove_single_obs, lookup_fmap, Hspec.
  by destruct (frame_of k (sort_values df)).
Qed.

End construction_facts.

(** ** One frame per vessel *)

Section distribute_facts.

Implicit Types (df frame : list Row) (k : Z) (ks : list Z).

Lemma NoDup_pd_unique (xs : list Z) : NoDup (pd_unique xs).
Proof.
  induction xs as [|x xs IH]; simpl; [constructor|].
  apply NoDup_cons. split.
  - rewrite list_elem_of_filter. by intros [? _].
  - by apply NoDup_filter.
Qed.

(** A row put in front of a dataframe goes to the front of the frame of its
    vessel and to no other. *)
Lemma concat_frames_cons ks (r : Row) df :
  NoDup ks → row_mmsi r ∈ ks →
  concat ((λ k, frame_of k (r :: df)) <$> ks)
  ≡ₚ r :: concat ((λ k, frame_of k df) <$> ks).
Proof.
  induction 1 as [|k ks Hk Hks IH]; [by intros ?%elem_of_nil|].
  intros Hr. rewrite !fmap_cons. cbn [concat].
  unfold frame_of at 1. rewrite filter_cons.
  destruct (decide (row_mmsi r = k)) as [Heq|Hne].
  - assert ((λ k, frame_of k (r :: df)) <$> ks = (λ k, frame_of k df) <$> ks)
      as ->; [|done].
    apply list_fmap_ext. intros i k' Hk'.
    unfold frame_of. rewrite filter_cons_False; [done|].
    intros Heq'. apply Hk. rewrite <- Heq, Heq'. by eapply list_elem_of_lookup_2.
  - apply elem_of_cons in Hr as [?|Hr]; [done|].
    rewrite (IH Hr). fold (frame_of k df). by rewrite Permutation_middle.
Qed.

Lemma concat_frames ks df :
  NoDup ks → Forall (λ r, row_mmsi r ∈ ks) df →
  concat ((λ k, frame_of k df) <$> ks) ≡ₚ df.
Proof.
  intros Hks. induction 1 as [|r df Hr _ IH].
  - clear Hks. by induction ks as [|k ks IHks].
  - by rewrite concat_frames_cons, IH.
Qed.

Lemma distribute_frames df :
  _distribute df = (λ k, frame_of k df) <$> pd_unique (row_mmsi <$> df).
Proof. done. Qed.


(** [_distribute] cuts the dataframe into one frame per vessel: every frame
    holds the rows of one vessel, all of them and in the order of the
    dataframe, and is not empty; different frames hold different vessels; and
    every row of the dataframe is in one frame. *)
Theorem distribute_partitions df :
  concat (_distribute df) ≡ₚ df
  ∧ Forall (λ frame, ∃ k, frame = frame_of k df ∧ frame ≠ []
                          ∧ pd_unique (row_mmsi <$> frame) = [k])
           (_distribute df)
  ∧ (∀ i j fi fj r r',
       _distribute df !! i = Some fi → _distribute df !! j = Some fj → i ≠ j →
       r ∈ fi → r' ∈ fj → row_mmsi r ≠ row_mmsi r').
Proof.
  rewrite distribute_frames.
  assert (∀ i fi, ((λ k, frame_of k df) <$> pd_unique (row_mmsi <$> df)) !! i = Some fi →
            ∃ k, pd_unique (row_mmsi <$> df) !! i = Some k ∧ fi = frame_of k df
                 ∧ k ∈ row_mmsi <$> df) as Hframe.
  { intros i fi. rewrite list_lookup_fmap.
    destruct (pd_unique (row_mmsi <$> df) !! i) as [k|] eqn:Hk; [|done].
    intros [= <-]. exists k. split_and!; [done..|].
    apply elem_of_pd_unique. by eapply list_elem_of_lookup_2. }
  split_and!.
  - apply concat_frames; [apply NoDup_pd_unique|].
    apply Forall_forall. intros r Hr. apply elem_of_pd_unique.
    by apply list_elem_of_fmap_2.
  - apply Forall_forall. intros frame (i & Hi)%list_elem_of_lookup_1.
    destruct (Hframe i frame Hi) as (k & _ & -> & Hin).
    exists k. split_and!; [done| |by apply frame_of_unique].
    by apply frame_of_nonempty.
  - intros i j fi fj r r' Hi Hj Hij Hr Hr' Heq.
    destruct (Hframe i fi Hi) as (k & Hk & -> & _).
    destruct (Hframe j fj Hj) as (k' & Hk' & -> & _).
    apply list_elem_of_filter in Hr as [<- _].
    apply list_elem_of_filter in Hr' as [<- _].
    rewrite <- Heq in Hk'. apply Hij.
    by eapply NoDup_lookup; [apply NoDup_pd_unique|..].
Qed.

End distribute_facts.

(** ** The parallel path, vessel by vessel *)

Section parallel_path.
Context `{Collaborators}.

Implicit Types (df frame : list Row) (k : Z) (trs : list (list AISMessage)).

Local Arguments segment : simpl never.
Local Arguments remove_short_in_place : simpl never.

(** The row loop of the parallel path when splitting is skipped: every
    report goes to the one track. *)
Lemma impl_loop_skip_from M (t : list AISMessage) rows :
  foldlM (impl_step M true) ([t], false) rows
  = Ok ([t ++ (impl_message M <$> rows)], false).
Proof.
  revert t. induction rows as [|row rows IH]; intros t.
  { simpl. by rewrite app_nil_r. }
  cbn [foldlM impl_step negb bind]. unfold append_to_last. cbn [last removelast bind app].
  rewrite IH. by rewrite <- app_assoc.
Qed.

Lemma impl_loop_skip M rows :
  ∃ first, foldlM (impl_step M true) ([[]], true) rows
           = Ok ([impl_message M <$> rows], first).
Proof.
  destruct rows as [|row rows]; [by exists true|]. exists false.
  cbn [foldlM impl_step bind]. unfold append_to_last. cbn [last removelast bind app].
  apply (impl_loop_skip_from M [impl_message M row]).
Qed.

(** One vessel of the parallel path, with or without splitting. *)
Lemma impl_construct_any self frame k (skip_tsplit : bool) :
  pd_unique (row_mmsi <$> frame) = [k] →
  _impl_construct_target_vessel self frame skip_tsplit
  = Ok {[ k := impl_vessel self k
                 (if skip_tsplit then [impl_message k <$> sort_values frame]
                  else segment (impl_message k <$> sort_values frame)) ]}.
Proof.
  intros Hk. unfold _impl_construct_target_vessel.
  change (map row_mmsi frame) with (row_mmsi <$> frame). rewrite Hk.
  cbn [length Nat.eqb py_assert py_first bind tracks].
  destruct skip_tsplit.
  - destruct (impl_loop_skip k (sort_values frame)) as [first ->]. done.
  - destruct (sort_values frame) as [|row rows] eqn:Hrows; [done|].
    rewrite impl_loop. done.
Qed.

(** A frame that does not hold the rows of exactly one vessel fails the
    assertion. *)
Lemma impl_construct_assertion self frame (skip_tsplit : bool) :
  length (pd_unique (row_mmsi <$> frame)) ≠ 1%nat →
  _impl_construct_target_vessel self frame skip_tsplit = Raise AssertionError.
Proof.
  intros Hlen. unfold _impl_construct_target_vessel.
  change (map row_mmsi frame) with (row_mmsi <$> frame).
  destruct (Nat.eqb_spec (length (pd_unique (row_mmsi <$> frame))) 1); done.
Qed.

(** [_impl_construct_target_vessel] takes the rows of one vessel: on a frame
    without rows and on a frame with rows of two vessels it fails its
    assertion, and on the rows of one vessel it returns a dictionary of one
    entry, the vessel under its MMSI, whether tracks are split or not. *)
Theorem one_vessel_per_frame self frame (skip_tsplit : bool) :
  (frame = [] →
   _impl_construct_target_vessel self frame skip_tsplit = Raise AssertionError)
  ∧ (∀ r r', r ∈ frame → r' ∈ frame → row_mmsi r ≠ row_mmsi r' →
       _impl_construct_target_vessel self frame skip_tsplit = Raise AssertionError)
  ∧ (∀ k, frame ≠ [] → Forall (λ r, row_mmsi r = k) frame →
       ∃ v, _impl_construct_target_vessel self frame skip_tsplit = Ok {[ k := v ]}
            ∧ mmsi v = k ∧ ts v = None
            ∧ ship_type v = _get_ship_type self k
            ∧ ship_length v = _get_ship_length self k).
Proof.
  split_and!.
  - by intros ->.
  - intros r r' Hr Hr' Hne. apply impl_construct_assertion.
    pose proof (NoDup_pd_unique (row_mmsi <$> frame)) as Hnodup.
    assert (row_mmsi r ∈ pd_unique (row_mmsi <$> frame)) as Hin
      by (apply elem_of_pd_unique; by apply list_elem_of_fmap_2).
    assert (row_mmsi r' ∈ pd_unique (row_mmsi <$> frame)) as Hin'
      by (apply elem_of_pd_unique; by apply list_elem_of_fmap_2).
    destruct (pd_unique (row_mmsi <$> frame)) as [|a [|b l]]; [done| |done].
    apply list_elem_of_singleton in Hin, Hin'. congruence.
  - intros k Hne Hall. rewrite (impl_construct_any self frame k).
    + eexists. by split_and!.
    + apply pd_unique_constant; [by intros ?%fmap_nil_inv|by apply Forall_fmap].
Qed.

(** The parallel path: one vessel for every MMSI of the dataframe. *)
Lemma mp_construct_any self df njobs (skip_tsplit : bool) :
  1 ≤ njobs →
  ∃ targets : Targets,
    _mp_construct_target_vessels self df njobs skip_tsplit = Ok targets ∧
    ∀ k, targets !! k =
         if decide (k ∈ row_mmsi <$> df)
         then Some (impl_vessel self k
                      (if skip_tsplit
                       then [impl_message k <$> sort_values (frame_of k df)]
                       else segment (impl_message k <$> sort_values (frame_of k df))))
         else None.
Proof.
  intros Hjobs. unfold _mp_construct_target_vessels, _distribute.
  destruct (Z.ltb_spec njobs 1) as [?|_]; [lia|]. cbn [bind].
  set (f := λ k, impl_vessel self k
                   (if skip_tsplit
                    then [impl_message k <$> sort_values (frame_of k df)]
                    else segment (impl_message k <$> sort_values (frame_of k df)))).
  rewrite (mapM_Ok _ (λ frame, match pd_unique (row_mmsi <$> frame) with
                               | k :: _ => {[ k := f k ]}
                               | [] => ∅
                               end)).
  2:{ apply Forall_fmap, Forall_forall. intros k Hk. simpl.
      rewrite elem_of_pd_unique in Hk.
      change (filter (λ r, row_mmsi r = k) df) with (frame_of k df).
      rewrite frame_of_unique by done. apply impl_construct_any.
      by apply frame_of_unique. }
  cbn [bind]. eexists. split; [done|]. intros k.
  rewrite <- list_fmap_compose.
  rewrite (list_fmap_ext _ (λ j, {[ j := f j ]}) (pd_unique (map row_mmsi df))).
  2:{ intros i j Hj. simpl.
      change (filter (λ r, row_mmsi r = j) df) with (frame_of j df).
      rewrite frame_of_unique; [done|].
      apply elem_of_pd_unique. by eapply list_elem_of_lookup_2. }
  rewrite lookup_updates, lookup_empty.
  destruct (decide (k ∈ pd_unique (map row_mmsi df))) as [Hin|Hout];
    rewrite elem_of_pd_unique in *.
  - by rewrite decide_True.
  - by rewrite decide_False.
Qed.

Lemma frame_of_elem k df :
  match frame_of k df with [] => k ∉ row_mmsi <$> df | _ => k ∈ row_mmsi <$> df end.
Proof.
  destruct (frame_of k df) as [|r frame] eqn:Hframe.
  - intros Hk. by apply (frame_of_nonempty k df Hk).
  - assert (r ∈ frame_of k df) as [<- Hr]%list_elem_of_filter by (rewrite Hframe; left).
    by apply list_elem_of_fmap_2.
Qed.

(** The parallel path with track splitting: every vessel of the dataframe
    is in the result, with the tracks the post-pass leaves of its reports, in
    order of time, cut at the split points. *)
Theorem parallel_path_segments self df njobs :
  1 ≤ njobs →
  ∃ targets : Targets,
    _mp_construct_target_vessels self df njobs false = Ok targets ∧
    ∀ k, match frame_of k df with
         | [] => targets !! k = None
         | frame =>
             ∃ v trs, targets !! k = Some v ∧ mmsi v = k ∧ ts v = None
               ∧ segmented (impl_message k <$> sort_values frame) trs
               ∧ tracks v = remove_short_in_place trs
         end.
Proof.
  intros Hjobs.
  destruct (mp_construct_any self df njobs false Hjobs) as (targets & Hrun & Hspec).
  exists targets. split; [done|]. intros k. rewrite Hspec.
  pose proof (frame_of_elem k df) as Hk.
  destruct (frame_of k df) as [|r frame] eqn:Hframe.
  - by rewrite decide_False.
  - rewrite decide_True by done. eexists _, _. split; [done|].
    split_and!; [done|done|apply segment_segmented|done].
Qed.

(** The parallel path without track splitting: every vessel of the
    dataframe is in the result, with one track of all its reports in order of
    time when it has two or more, and with no track when it has one. *)
Theorem skip_tsplit_one_track self df njobs :
  1 ≤ njobs →
  ∃ targets : Targets,
    _mp_construct_target_vessels self df njobs true = Ok targets ∧
    ∀ k, match frame_of k df with
         | [] => targets !! k = None
         | frame =>
             ∃ v, targets !! k = Some v ∧ mmsi v = k
               ∧ tracks v = filter long [impl_message k <$> sort_values frame]
         end.
Proof.
  intros Hjobs.
  destruct (mp_construct_any self df njobs true Hjobs) as (targets & Hrun & Hspec).
  exists targets. split; [done|]. intros k. rewrite Hspec.
  pose proof (frame_of_elem k df) as Hk.
  destruct (frame_of k df) as [|r frame] eqn:Hframe.
  - by rewrite decide_False.
  - rewrite decide_True by done. eexists. split; [done|]. split; [done|].
    cbn [impl_vessel find_shell tracks].
    by destruct (impl_message k <$> sort_values (r :: frame)) as [|m0 [|m1 msgs]].
Qed.

(** [get_all_ships] cannot take the sequential path: with one job it fails
    the assertion on [tpos]; with no job the pool cannot be made; with two jobs
    or more it returns one vessel for every MMSI of the dynamic messages. *)
Theorem get_all_ships_needs_two_jobs self (dynamic_msgs : list Row) njobs
    (skip_tsplit : bool) :
  (njobs = 1 → get_all_ships self dynamic_msgs njobs skip_tsplit
               = Raise AssertionError)
  ∧ (njobs < 1 → get_all_ships self dynamic_msgs njobs skip_tsplit
                 = Raise ValueError)
  ∧ (1 < njobs →
     ∃ targets : Targets,
       get_all_ships self dynamic_msgs njobs skip_tsplit = Ok targets
       ∧ ∀ k, is_Some (targets !! k) ↔ k ∈ row_mmsi <$> dynamic_msgs).
Proof.
  unfold get_all_ships, construct_target_vessels. split_and!.
  - by intros ->.
  - intros Hjobs. destruct (Z.eqb_spec njobs 1) as [?|_]; [lia|].
    unfold _mp_construct_target_vessels.
    destruct (Z.ltb_spec njobs 1) as [_|?]; [done|lia].
  - intros Hjobs. destruct (Z.eqb_spec njobs 1) as [?|_]; [lia|].
    destruct (mp_construct_any self dynamic_msgs njobs skip_tsplit)
      as (targets & Hrun & Hspec); [lia|].
    exists targets. split; [done|]. intros k. rewrite Hspec.
    destruct (decide (k ∈ row_mmsi <$> dynamic_msgs)); [by split; eauto|].
    split; [by intros []|done].
Qed.

End parallel_path.

(** ** Sorting the whole dataframe and sorting one vessel's rows *)

Section sorted_frames.
Context `{Collaborators}.

Implicit Types (df frame : DataFrame) (k : MMSI).

Lemma by_timestamp_transitive : Transitive by_timestamp.
Proof. unfold by_timestamp. intros x y z. lia. Qed.

#[local] Existing Instance by_timestamp_transitive.

Lemma StronglySorted_filter {A} (R : relation A) (P : A → Prop)
    `{∀ x, Decision (P x)} (l : list A) :
  StronglySorted R l → StronglySorted R (filter P l).
Proof.
  induction 1 as [|x l _ IH Hx]; [constructor|].
  rewrite filter_cons. destruct (decide (P x)); [|done].
  constructor; [done|]. rewrite Forall_forall in *.
  intros y [_ Hy]%list_elem_of_filter. auto.
Qed.

Lemma NoDup_fmap_elem_inj {A B} (f : A → B) (l : list A) x y :
  NoDup (f <$> l) → x ∈ l → y ∈ l → f x = f y → x = y.
Proof.
  induction l as [|a l IH]; simpl; [by intros _ ?%elem_of_nil|].
  rewrite NoDup_cons. intros [Ha Hl] Hx Hy Hxy.
  apply elem_of_cons in Hx as [->|Hx]; apply elem_of_cons in Hy as [->|Hy];
    [done| | |by apply IH].
  - destruct Ha. rewrite Hxy. by apply list_elem_of_fmap_2.
  - destruct Ha. rewrite <- Hxy. by apply list_elem_of_fmap_2.
Qed.

(** With at most one row per vessel and timestamp, the rows of a vessel
    come out of the sorted dataframe in the order in which sorting them
    alone puts them. *)
Lemma sorted_frame df k :
  sorts sort_values df → sorts sort_values (frame_of k df) →
  NoDup (row_key <$> df) →
  frame_of k (sort_values df) = sort_values (frame_of k df).
Proof.
  intros [Hperm Hsorted] [Hperm_k Hsorted_k] Hkeys.
  apply (Sorted_unique_strong by_timestamp).
  - intros x1 x2 Hx1 Hx2 H12 H21. unfold by_timestamp in *.
    apply list_elem_of_filter in Hx1 as [Hk1 Hx1]. rewrite Hperm in Hx1.
    rewrite Hperm_k in Hx2. apply list_elem_of_filter in Hx2 as [Hk2 Hx2].
    apply (NoDup_fmap_elem_inj row_key df); [done..|].
    unfold row_key. f_equal; lia.
  - apply StronglySorted_Sorted, StronglySorted_filter.
    apply Sorted_StronglySorted; [apply _|done].
  - done.
  - unfold frame_of at 1. by rewrite Hperm, Hperm_k.
Qed.

Lemma messages_agree k frame :
  Forall (λ r, row_mmsi r = k) frame →
  Forall (λ r, int_timestamp (row_timestamp r)
               = pydatetime_timestamp (row_timestamp r)) frame →
  impl_message k <$> frame = sp_message <$> frame.
Proof.
  induction 1 as [|r frame Hr _ IH]; [done|].
  rewrite Forall_cons. intros [Hts Hrest]. simpl. f_equal; [|by apply IH].
  unfold impl_message, sp_message. by rewrite Hr, Hts.
Qed.

End sorted_frames.

(** ** Target-vessel construction *)

Section construction_theorems.
Context `{Collaborators}.

Implicit Types (df frame : DataFrame) (k : MMSI).

Local Arguments segment : simpl never.
Local Arguments remove_short_in_place : simpl never.

(** C2, as amended: with the overlap filter off and track splitting on, on
    rows with at most one row per vessel and timestamp and on which both
    timestamp conversions agree, the sequential and the parallel path both
    return, with the same vessel keys, and for every vessel the tracks of the
    sequential result are the tracks of at least two reports of the parallel
    result, in the same order and with the same reports. *)
Theorem sequential_parallel_long_tracks self df tpos njobs :
  1 < njobs →
  sorts sort_values df →
  (∀ k, sorts sort_values (frame_of k df)) →
  NoDup (row_key <$> df) →
  Forall (λ r, int_timestamp (row_timestamp r)
               = pydatetime_timestamp (row_timestamp r)) df →
  ∃ sp_targets mp_targets : Targets,
    construct_target_vessels self df (Some tpos) false 1 false = Ok sp_targets ∧
    construct_target_vessels self df (Some tpos) false njobs false = Ok mp_targets ∧
    dom sp_targets = dom mp_targets ∧
    ∀ k, tracks <$> sp_targets !! k
         = (λ v, filter long (tracks v)) <$> mp_targets !! k.
Proof.
  intros Hjobs Hsort Hsort_k Hkeys Hconv.
  unfold construct_target_vessels.
  destruct (Z.eqb_spec njobs 1) as [?|_]; [lia|].
  change (1 =? 1) with true. cbn [py_assert bool_decide bind].
  rewrite bool_decide_true by eauto. cbn [bind].
  destruct (sp_construct self df (Some tpos)) as (sp_targets & -> & Hsp).
  destruct (mp_construct self df njobs Hjobs) as (mp_targets & -> & Hmp).
  { intros k. apply Hsort_k. }
  exists sp_targets, mp_targets.
  assert (∀ k, tracks <$> sp_targets !! k
               = (λ v, filter long (tracks v)) <$> mp_targets !! k) as Hsame.
  { intros k. rewrite Hsp, Hmp.
    destruct (decide (k ∈ row_mmsi <$> df)) as [Hin|Hout].
    - rewrite (sorted_frame df k Hsort (Hsort_k k) Hkeys).
      destruct (sort_values (frame_of k df)) as [|row rows] eqn:Hrows.
      { destruct (frame_of_nonempty k df Hin).
        apply Permutation_nil_r. by rewrite <- (proj1 (Hsort_k k)), Hrows. }
      assert (Forall (λ r, r ∈ frame_of k df) (row :: rows)) as Hel.
      { apply Forall_forall. intros r Hr.
        by rewrite <- (proj1 (Hsort_k k)), Hrows. }
      simpl. rewrite remove_short_in_place_long. do 3 f_equal. symmetry.
      apply (messages_agree k (row :: rows)).
      + eapply Forall_impl; [exact Hel|]. simpl.
        by intros r [? _]%list_elem_of_filter.
      + eapply Forall_impl; [exact Hel|]. simpl.
        intros r [_ Hr]%list_elem_of_filter.
        rewrite Forall_forall in Hconv. by apply Hconv.
    - rewrite frame_of_empty; [done|].
      by rewrite (proj1 Hsort). }
  split_and!; [done..| |done].
  apply set_eq. intros k. rewrite !elem_of_dom.
  by rewrite <- (fmap_is_Some tracks (sp_targets !! k)), Hsame, fmap_is_Some.
Qed.

End construction_theorems.

(** ** When the two paths return the same tracks *)

Section paths_agree.
Context `{Collaborators}.

Implicit Types (df frame : list Row) (k : Z).

Local Arguments segment : simpl never.
Local Arguments remove_short_in_place : simpl never.

(** When the two paths return the same tracks: on rows with at most one row
    per vessel and timestamp and on which both timestamp conversions agree,
    with the overlap filter off and track splitting on, both paths return, and
    they give a vessel the same tracks exactly when its reports are not cut
    into two neighbouring tracks of fewer than two reports. *)
Theorem paths_agree_iff_short_tracks_apart self df tpos njobs :
  1 < njobs →
  sorts sort_values df →
  (∀ k, sorts sort_values (frame_of k df)) →
  NoDup (row_key <$> df) →
  Forall (λ r, int_timestamp (row_timestamp r)
               = pydatetime_timestamp (row_timestamp r)) df →
  ∃ sp_targets mp_targets : Targets,
    construct_target_vessels self df (Some tpos) false 1 false = Ok sp_targets ∧
    construct_target_vessels self df (Some tpos) false njobs false = Ok mp_targets ∧
    ∀ k trs, segmented (sp_message <$> frame_of k (sort_values df)) trs →
      (tracks <$> sp_targets !! k = tracks <$> mp_targets !! k
       ↔ Forall (λ p, long p.1 ∨ long p.2) (adjacent trs)).
Proof.
  intros Hjobs Hsort Hsort_k Hkeys Hconv.
  unfold construct_target_vessels.
  destruct (Z.eqb_spec njobs 1) as [?|_]; [lia|].
  change (1 =? 1) with true. cbn [py_assert bool_decide bind].
  rewrite bool_decide_true by eauto. cbn [bind].
  destruct (sp_construct self df (Some tpos)) as (sp_targets & -> & Hsp).
  destruct (mp_construct self df njobs Hjobs) as (mp_targets & -> & Hmp).
  { intros k. apply Hsort_k. }
  exists sp_targets, mp_targets. split_and!; [done..|].
  intros k trs ->%segmented_unique. rewrite Hsp, Hmp.
  destruct (decide (k ∈ row_mmsi <$> df)) as [Hin|Hout].
  - rewrite (sorted_frame df k Hsort (Hsort_k k) Hkeys).
    destruct (sort_values (frame_of k df)) as [|row rows] eqn:Hrows.
    { destruct (frame_of_nonempty k df Hin).
      apply Permutation_nil_r. by rewrite <- (proj1 (Hsort_k k)), Hrows. }
    assert (Forall (λ r, r ∈ frame_of k df) (row :: rows)) as Hel.
    { apply Forall_forall. intros r Hr.
      by rewrite <- (proj1 (Hsort_k k)), Hrows. }
    assert (impl_message k <$> row :: rows = sp_message <$> row :: rows) as ->.
    { apply (messages_agree k (row :: rows)).
      + eapply Forall_impl; [exact Hel|]. simpl.
        by intros r [? _]%list_elem_of_filter.
      + eapply Forall_impl; [exact Hel|]. simpl.
        intros r [_ Hr]%list_elem_of_filter.
        rewrite Forall_forall in Hconv. by apply Hconv. }
    cbn [fmap option_fmap option_map impl_vessel find_shell tracks]. split.
    + intros [= Heq]. apply remove_short_in_place_apart.
      exact (eq_ind _ (Forall long) (filter_long_long _) _ Heq).
    + intros Hadj. f_equal. symmetry. by apply remove_short_in_place_exact.
  - rewrite frame_of_empty by (by rewrite (proj1 Hsort)).
    split; [constructor|done].
Qed.

End paths_agree.

(** ** The sequential path keeps no short track *)

Section sequential_path.
Context `{Collaborators}.

Lemma foldlM_values_lookup (body : TargetShip → result TargetShip)
    (l : list (Z * TargetShip)) (acc out : Targets) :
  foldlM (λ acc kv, let* v := body kv.2 in Ok (<[ kv.1 := v ]> acc)) acc l = Ok out →
  ∀ k v', out !! k = Some v' →
    (∃ v, (k, v) ∈ l ∧ body v = Ok v') ∨ acc !! k = Some v'.
Proof.
  revert acc. induction l as [|[k0 v0] l IH]; intros acc; simpl.
  { intros [= ->]. auto. }
  destruct (body v0) as [v0'|e] eqn:Hv0; simpl; [|done].
  intros Hrun k v' Hk. destruct (IH _ Hrun k v' Hk) as [(v & Hv & Hb)|Hacc].
  - left. exists v. split; [by right|done].
  - destruct (decide (k0 = k)) as [->|Hne].
    + rewrite lookup_insert_eq in Hacc. injection Hacc as <-.
      left. exists v0. split; [by left|done].
    + rewrite lookup_insert_ne in Hacc by done. by right.
Qed.

Lemma values_forM_lookup body (targets out : Targets) k v' :
  values_forM body targets = Ok out → out !! k = Some v' →
  (∃ v, targets !! k = Some v ∧ body v = Ok v') ∨ targets !! k = Some v'.
Proof.
  intros Hrun Hk.
  destruct (foldlM_values_lookup body _ _ _ Hrun k v' Hk) as [(v & Hv & Hb)|?];
    [left|by right].
  exists v. split; [|done]. by apply elem_of_map_to_list.
Qed.

Lemma overlapping_tracks_subset trs tpos to_keep :
  overlapping_tracks trs tpos = Ok to_keep → to_keep ⊆ trs.
Proof.
  revert to_keep. induction trs as [|track trs IH]; intros to_keep; simpl.
  { by intros [= <-]. }
  destruct (_overlaps_search_date track tpos) as [keep|e]; simpl; [|done].
  destruct (overlapping_tracks trs tpos) as [rest|e]; simpl; [|done].
  intros [= <-]. specialize (IH rest eq_refl).
  destruct keep; intros x Hx.
  - apply elem_of_cons in Hx as [->|Hx]; [by left|right; auto].
  - right. auto.
Qed.

(** Every track the sequential path returns has at least two reports,
    whether the overlap filter runs or not. *)
Lemma sequential_tracks_long self df tpos overlap (targets : Targets) k v :
  _sp_construct_target_vessels self df tpos overlap = Ok targets →
  targets !! k = Some v → Forall long (tracks v).
Proof.
  unfold _sp_construct_target_vessels.
  destruct (foldlM (sp_step self tpos) ∅ (sort_values df)) as [walked|e];
    cbn [bind]; [|done].
  assert (∀ k v, _remove_single_obs (find_shell <$> walked) !! k = Some v →
                 Forall long (tracks v)) as Hlong.
  { intros k' v'. rewrite lookup_remove_single_obs.
    destruct ((find_shell <$> walked) !! k') as [w|]; [|done].
    intros [= <-]. simpl. apply Forall_forall.
    by intros track [? _]%list_elem_of_filter. }
  destruct overlap; [|intros [= <-]; apply Hlong].
  intros Hrun Hk. unfold _filter_overlapping in Hrun.
  destruct (values_forM_lookup _ _ _ k v Hrun Hk) as [(w & Hw & Hbody)|Hw];
    [|by eapply Hlong].
  destruct (overlapping_tracks (tracks w) tpos) as [to_keep|e] eqn:Hkeep;
    [|done].
  injection Hbody as <-. simpl.
  apply overlapping_tracks_subset in Hkeep.
  specialize (Hlong k w Hw). rewrite Forall_forall in *. auto.
Qed.

End sequential_path.

(** ** The sequential path, vessel by vessel, and its overlap filter *)

Section sequential_path_facts.
Context `{Collaborators}.

Implicit Types (df frame : list Row) (k : Z) (trs : list (list AISMessage))
  (targets : Targets).

Local Arguments segment : simpl never.

(** The sequential path without the overlap filter: every vessel of the
    dataframe is in the result, found for the query time, with the tracks of
    two reports or more of its reports, in order of time, cut at the split
    points. *)
Theorem sequential_path_segments self df tpos :
  ∃ targets : Targets,
    _sp_construct_target_vessels self df tpos false = Ok targets ∧
    ∀ k, match frame_of k (sort_values df) with
         | [] => targets !! k = None
         | frame =>
             ∃ v trs, targets !! k = Some v ∧ mmsi v = k
               ∧ ts v = tpos_timestamp <$> tpos
               ∧ segmented (sp_message <$> frame) trs
               ∧ tracks v = filter long trs
         end.
Proof.
  unfold _sp_construct_target_vessels.
  destruct (sp_loop self tpos (sort_values df)) as (targets & -> & Hspec).
  cbn [bind]. eexists. split; [done|]. intros k.
  rewrite lookup_remove_single_obs, lookup_fmap, Hspec.
  destruct (frame_of k (sort_values df)) as [|r frame]; [done|].
  eexists _, _. split; [done|].
  split_and!; [done|done|apply segment_segmented|done].
Qed.

(** A loop over the values of a dictionary whose body never raises. *)
Lemma foldlM_values_Ok (body : TargetShip → result TargetShip)
    (g : TargetShip → TargetShip) (l : list (Z * TargetShip)) (acc : Targets) :
  Forall (λ kv, body kv.2 = Ok (g kv.2)) l →
  foldlM (λ acc kv, let* v := body kv.2 in Ok (<[ kv.1 := v ]> acc)) acc l
  = Ok (foldl (λ acc kv, <[ kv.1 := g kv.2 ]> acc) acc l).
Proof.
  intros Hl. revert acc. induction Hl as [|[k v] l Hv _ IH]; intros acc; [done|].
  simpl in *. rewrite Hv. simpl. apply IH.
Qed.

Lemma lookup_foldl_insert (g : TargetShip → TargetShip)
    (l : list (Z * TargetShip)) (acc : Targets) k :
  NoDup l.*1 →
  foldl (λ acc kv, <[ kv.1 := g kv.2 ]> acc) acc l !! k
  = match (list_to_map l : Targets) !! k with
    | Some v => Some (g v)
    | None => acc !! k
    end.
Proof.
  revert acc. induction l as [|[k0 v0] l IH]; intros acc.
  { intros _. unfold list_to_map. simpl. by rewrite lookup_empty. }
  rewrite fmap_cons, NoDup_cons. cbn [foldl fst snd].
  intros [Hk0 Hl]. rewrite IH by done.
  rewrite list_to_map_cons.
  destruct (decide (k0 = k)) as [<-|Hne].
  - rewrite lookup_insert_eq.
    rewrite (not_elem_of_list_to_map_1 (M := gmap Z) l k0 Hk0).
    by rewrite lookup_insert_eq.
  - by rewrite !lookup_insert_ne by done.
Qed.

Lemma values_forM_Ok (body : TargetShip → result TargetShip)
    (g : TargetShip → TargetShip) targets :
  map_Forall (λ _ v, body v = Ok (g v)) targets →
  values_forM body targets = Ok (g <$> targets).
Proof.
  intros Hbody. unfold values_forM.
  rewrite (foldlM_values_Ok body g).
  2:{ apply map_Forall_to_list in Hbody.
      eapply Forall_impl; [exact Hbody|]. by intros [k v]. }
  f_equal. apply map_eq. intros k.
  rewrite lookup_foldl_insert by apply NoDup_fst_map_to_list.
  rewrite list_to_map_to_list, lookup_fmap.
  by destruct (targets !! k).
Qed.

Lemma overlaps_search_date_spans (track : list AISMessage) tpos :
  track ≠ [] → _overlaps_search_date track (Some tpos) = Ok (spans tpos track).
Proof.
  intros Htrack. unfold _overlaps_search_date, spans, py_last.
  destruct track as [|m0 track]; [done|].
  cbn [py_first bind head].
  destruct (last (m0 :: track)) as [m1|] eqn:Hlast.
  - by destruct (PrimFloat.ltb (timestamp m0) (tpos_timestamp tpos)).
  - by apply last_None in Hlast.
Qed.

Lemma overlapping_tracks_spans trs tpos :
  Forall (λ t, t ≠ []) trs →
  overlapping_tracks trs (Some tpos) = Ok (filter (λ t, spans tpos t = true) trs).
Proof.
  induction 1 as [|track trs Htrack _ IH]; [done|].
  cbn [overlapping_tracks]. rewrite overlaps_search_date_spans, IH by done.
  cbn [bind]. rewrite filter_cons.
  destruct (spans tpos track); by case_decide.
Qed.

(** The overlap filter of the sequential path: it returns, keeps every
    vessel, and leaves each vessel the tracks that span the query time, in
    their order. *)
Theorem overlap_filter_keeps_spanning_tracks self df tpos :
  ∃ plain filtered : Targets,
    _sp_construct_target_vessels self df (Some tpos) false = Ok plain
    ∧ _sp_construct_target_vessels self df (Some tpos) true = Ok filtered
    ∧ ∀ k, filtered !! k
           = (λ v, set_tracks v (filter (λ t, spans tpos t = true) (tracks v)))
               <$> plain !! k.
Proof.
  unfold _sp_construct_target_vessels.
  destruct (sp_loop self (Some tpos) (sort_values df)) as (walked & -> & _).
  cbn [bind]. eexists _, _. split; [done|].
  unfold _filter_overlapping.
  rewrite (values_forM_Ok _
             (λ v, set_tracks v (filter (λ t, spans tpos t = true) (tracks v)))).
  - split; [done|]. intros k. by rewrite lookup_fmap.
  - intros k v. rewrite lookup_remove_single_obs.
    destruct ((find_shell <$> walked) !! k) as [w|]; [|done].
    intros [= <-]. cbn [set_tracks tracks].
    rewrite overlapping_tracks_spans; [done|].
    apply Forall_forall. intros t [Ht _]%list_elem_of_filter.
    intros ->. unfold long in Ht. simpl in Ht. lia.
Qed.

End sequential_path_facts.

(** ** What the returned tracks are made of *)

Section soundness.
Context `{Collaborators}.

Implicit Types (df frame : list Row) (k : Z) (trs : list (list AISMessage))
  (track : list AISMessage) (targets : Targets).

Local Arguments segment : simpl never.
Local Arguments remove_short_in_place : simpl never.

Lemma elem_of_concat_2 {A} (x : A) (l : list A) (ls : list (list A)) :
  x ∈ l → l ∈ ls → x ∈ concat ls.
Proof.
  intros Hx. induction 1 as [l ls|l l' ls _ IH]; simpl; apply elem_of_app; auto.
Qed.

Lemma segmented_unsplit k msgs trs :
  segmented msgs trs → Forall (λ m, sender m = k) msgs →
  Forall (unsplit_track_of k) trs.
Proof.
  intros (Hcat & _ & Hin & _) Hk. subst msgs.
  apply Forall_forall. intros track Htrack. split.
  - rewrite Forall_forall in Hk |- *. intros m Hm. apply Hk.
    by apply (elem_of_concat_2 m track trs).
  - rewrite Forall_forall in Hin. auto.
Qed.

Lemma list_remove_subset i track trs : list_remove i track trs ⊆ trs.
Proof.
  revert i. induction trs as [|x trs IH]; intros [|i]; simpl;
    [by intros y Hy..|by intros y Hy; right|].
  destruct (track_eqb x track); [by intros y Hy; right|].
  intros y [->|Hy]%elem_of_cons; [by left|]. right. by apply (IH i).
Qed.

Lemma remove_loop_subset fuel i trs : remove_loop fuel i trs ⊆ trs.
Proof.
  revert i trs. induction fuel as [|fuel IH]; intros i trs; simpl; [by intros y Hy|].
  destruct (trs !! i) as [track|]; [|by intros y Hy].
  destruct (length track <? 2)%nat; [|apply IH].
  intros y Hy. by apply (list_remove_subset i track), (IH (S i)).
Qed.

Lemma sp_messages_sender k df :
  Forall (λ m, sender m = k) (sp_message <$> frame_of k df).
Proof.
  apply Forall_fmap, Forall_forall. by intros r [? _]%list_elem_of_filter.
Qed.

Lemma impl_messages_sender k df : Forall (λ m, sender m = k) (impl_message k <$> df).
Proof. apply Forall_fmap, Forall_forall. by intros r _. Qed.

(** Where the tracks of a returned vessel come from: they are among the
    tracks the row loop of the path built of the reports of the vessel. *)
Lemma result_tracks self df tpos (overlap : bool) njobs (skip_tsplit : bool)
    targets k v :
  construct_target_vessels self df tpos overlap njobs skip_tsplit = Ok targets →
  targets !! k = Some v →
  mmsi v = k
  ∧ ∃ trs, tracks v ⊆ trs
      ∧ if njobs =? 1
        then trs = segment (sp_message <$> frame_of k (sort_values df))
        else trs = if skip_tsplit
                   then [impl_message k <$> sort_values (frame_of k df)]
                   else segment (impl_message k <$> sort_values (frame_of k df)).
Proof.
  unfold construct_target_vessels. destruct (njobs =? 1) eqn:Hjobs.
  - destruct tpos as [tpos|]; [|done]. cbn [py_assert bind].
    rewrite bool_decide_true by eauto. cbn [bind].
    unfold _sp_construct_target_vessels.
    destruct (sp_loop self (Some tpos) (sort_values df)) as (walked & -> & Hspec).
    cbn [bind].
    assert (∀ k v, _remove_single_obs (find_shell <$> walked) !! k = Some v →
                   mmsi v = k
                   ∧ tracks v ⊆ segment (sp_message <$> frame_of k (sort_values df)))
      as Hfrom.
    { intros k' v'. rewrite lookup_remove_single_obs, lookup_fmap, Hspec.
      destruct (frame_of k' (sort_values df)) as [|r frame]; [done|].
      intros [= <-]. split; [done|]. cbn [set_tracks tracks find_shell sp_vessel].
      by intros track [_ Htrack]%list_elem_of_filter. }
    destruct overlap.
    2:{ intros [= <-] Hk. destruct (Hfrom k v Hk). eauto. }
    intros Hrun Hk. unfold _filter_overlapping in Hrun.
    destruct (values_forM_lookup _ _ _ k v Hrun Hk) as [(w & Hw & Hbody)|Hw].
    2:{ destruct (Hfrom k v Hw). eauto. }
    destruct (overlapping_tracks (tracks w) (Some tpos)) as [to_keep|e] eqn:Hkeep;
      [|done].
    injection Hbody as <-. cbn [set_tracks tracks mmsi].
    apply overlapping_tracks_subset in Hkeep.
    destruct (Hfrom k w Hw) as [Hmmsi Htracks]. split; [done|].
    eexists. split; [|done]. intros track Htrack. auto.
  - destruct (Z.le_gt_cases 1 njobs) as [Hpool|Hpool].
    2:{ unfold _mp_construct_target_vessels.
        destruct (Z.ltb_spec njobs 1) as [_|?]; [done|lia]. }
    destruct (mp_construct_any self df njobs skip_tsplit Hpool) as (out & -> & Hspec).
    intros [= <-]. rewrite Hspec.
    destruct (decide (k ∈ row_mmsi <$> df)); [|done].
    intros [= <-]. split; [done|]. eexists. split; [|done].
    cbn [impl_vessel find_shell tracks]. apply remove_loop_subset.
Qed.

(** What target-vessel construction returns, on either path with track
    splitting: every vessel is filed under its MMSI, every report of its tracks
    was sent by it, and no track has a split point between two neighbours. *)
Theorem tracks_unsplit_and_of_their_vessel self df tpos (overlap : bool) njobs
    targets k v :
  construct_target_vessels self df tpos overlap njobs false = Ok targets →
  targets !! k = Some v →
  mmsi v = k ∧ Forall (unsplit_track_of k) (tracks v).
Proof.
  intros Hrun Hk.
  destruct (result_tracks _ _ _ _ _ _ _ _ _ Hrun Hk) as (Hmmsi & trs & Htracks & Htrs).
  split; [done|].
  assert (Forall (unsplit_track_of k) trs) as Hunsplit.
  { destruct (njobs =? 1); subst trs;
      (eapply segmented_unsplit; [apply segment_segmented|]).
    - apply sp_messages_sender.
    - apply impl_messages_sender. }
  rewrite Forall_forall in Hunsplit |- *. auto.
Qed.

Lemma StronglySorted_fmap_elem {A B} (f : A → B) (R1 : relation A)
    (R2 : relation B) (l : list A) :
  (∀ x y, x ∈ l → y ∈ l → R1 x y → R2 (f x) (f y)) →
  StronglySorted R1 l → StronglySorted R2 (f <$> l).
Proof.
  intros Hf Hl. induction Hl as [|x l _ IH Hx]; [constructor|].
  simpl. constructor.
  - apply IH. intros y z Hy Hz. apply Hf; by right.
  - apply Forall_fmap, Forall_forall. rewrite Forall_forall in Hx.
    intros y Hy. apply Hf; [by left|by right|auto].
Qed.

Lemma StronglySorted_concat {A} (R : relation A) (ls : list (list A)) :
  StronglySorted R (concat ls) → Forall (StronglySorted R) ls.
Proof.
  induction ls as [|l ls IH]; simpl; [constructor|].
  intros Happ. constructor.
  - by apply StronglySorted_app_1_l in Happ.
  - apply IH. by apply StronglySorted_app_1_r in Happ.
Qed.

Lemma frame_of_sorted k df :
  Sorted by_timestamp df → StronglySorted by_timestamp (frame_of k df).
Proof.
  intros Hdf. apply StronglySorted_filter.
  apply Sorted_StronglySorted; [apply by_timestamp_transitive|done].
Qed.

(** Every track that target-vessel construction returns is in order of
    time, on either path, with or without track splitting and the overlap
    filter: when [sort_values] sorts and the conversion of the timestamps of
    the dataframe to Unix time keeps their order. *)
Theorem tracks_in_time_order self df tpos (overlap : bool) njobs
    (skip_tsplit : bool) targets k v :
  (∀ l, sorts sort_values l) →
  keeps_order int_timestamp df → keeps_order pydatetime_timestamp df →
  construct_target_vessels self df tpos overlap njobs skip_tsplit = Ok targets →
  targets !! k = Some v →
  Forall in_time_order (tracks v).
Proof.
  intros Hsorts Hint Hpy Hrun Hk.
  destruct (result_tracks _ _ _ _ _ _ _ _ _ Hrun Hk) as (_ & trs & Htracks & Htrs).
  assert (Forall in_time_order trs) as Hordered.
  2:{ rewrite Forall_forall in Hordered |- *. auto. }
  destruct (njobs =? 1).
  - subst trs. apply StronglySorted_concat.
    rewrite (proj1 (segment_segmented _)).
    apply (StronglySorted_fmap_elem _ by_timestamp);
      [|apply frame_of_sorted, Hsorts].
    intros r r' [_ Hr]%list_elem_of_filter [_ Hr']%list_elem_of_filter.
    rewrite (proj1 (Hsorts df)) in Hr, Hr'. by apply Hpy.
  - assert (in_time_order (impl_message k <$> sort_values (frame_of k df)))
      as Hmsgs.
    { apply (StronglySorted_fmap_elem _ by_timestamp).
      - intros r r'. rewrite !(proj1 (Hsorts (frame_of k df))).
        intros [_ Hr]%list_elem_of_filter [_ Hr']%list_elem_of_filter.
        by apply Hint.
      - apply Sorted_StronglySorted; [apply by_timestamp_transitive|].
        apply Hsorts. }
    destruct skip_tsplit; subst trs; [by repeat constructor|].
    apply StronglySorted_concat. by rewrite (proj1 (segment_segmented _)).
Qed.

End soundness.

(** ** Interpolation of the vessels found *)

Section interpolation_facts.

Variable interpolate : string → TargetShip → interpolation.

Implicit Types (tgts acc : Targets) (mode : string).

Lemma foldlM_interpolate mode (l : list (Z * TargetShip)) acc :
  Forall (λ kv, ∀ e, interpolate mode kv.2 ≠ InterpolateRaised e) l →
  NoDup l.*1 →
  ∃ out : Targets,
    foldlM (λ tgts kv,
              match interpolate mode kv.2 with
              | Interpolated tgt => Ok (<[ kv.1 := tgt ]> tgts)
              | InterpolationError => Ok (delete kv.1 tgts)
              | InterpolateRaised e => Raise e
              end) acc l = Ok out
    ∧ ∀ k, out !! k = match (list_to_map l : Targets) !! k with
                      | Some v => interpolated interpolate mode v
                      | None => acc !! k
                      end.
Proof.
  intros Hl. revert acc. induction Hl as [|[k0 v0] l Hv0 _ IH]; intros acc.
  { intros _. exists acc. split; [done|]. intros k.
    unfold list_to_map. simpl. by rewrite lookup_empty. }
  rewrite fmap_cons, NoDup_cons. intros [Hk0 Hl]. cbn [foldlM fst snd].
  simpl in Hv0.
  assert (∃ acc' : Targets,
            match interpolate mode v0 with
            | Interpolated tgt => Ok (<[ k0 := tgt ]> acc)
            | InterpolationError => Ok (delete k0 acc)
            | InterpolateRaised e => Raise e
            end = Ok acc'
            ∧ acc' !! k0 = interpolated interpolate mode v0
            ∧ ∀ k, k0 ≠ k → acc' !! k = acc !! k) as (acc' & -> & Hk0' & Hother).
  { unfold interpolated.
    destruct (interpolate mode v0) as [tgt| |e] eqn:Hint; [| |by destruct (Hv0 e)].
    - eexists. split; [done|]. split; [by rewrite lookup_insert_eq|].
      intros k Hne. by rewrite lookup_insert_ne.
    - eexists. split; [done|]. split; [by rewrite lookup_delete_eq|].
      intros k Hne. by rewrite lookup_delete_ne. }
  cbn [bind]. destruct (IH acc' Hl) as (out & -> & Hout).
  exists out. split; [done|]. intros k. rewrite Hout, list_to_map_cons.
  destruct (decide (k0 = k)) as [<-|Hne].
  - by rewrite lookup_insert_eq, (not_elem_of_list_to_map_1 (M := gmap Z) l k0 Hk0).
  - rewrite lookup_insert_ne by done.
    destruct (list_to_map l !! k); [done|]. by apply Hother.
Qed.

(** When no interpolation raises anything but [InterpolationError],
    [_interpolate_trajectories] returns the vessels whose interpolation
    succeeded, interpolated, under their keys, and drops the others. *)
Theorem interpolation_drops_failures tgts mode :
  map_Forall (λ _ v, ∀ e, interpolate mode v ≠ InterpolateRaised e) tgts →
  _interpolate_trajectories interpolate tgts mode
  = Ok (omap (interpolated interpolate mode) tgts).
Proof.
  intros Hraise. unfold _interpolate_trajectories.
  destruct (foldlM_interpolate mode (map_to_list tgts) tgts) as (out & -> & Hout).
  - apply map_Forall_to_list in Hraise.
    eapply Forall_impl; [exact Hraise|]. by intros [k v].
  - apply NoDup_fst_map_to_list.
  - f_equal. apply map_eq. intros k.
    rewrite Hout, list_to_map_to_list, lookup_omap.
    by destruct (tgts !! k).
Qed.

End interpolation_facts.

(** ** Worked examples of target-vessel construction *)

Section construction_examples.

#[local] Existing Instance whole_seconds.

Lemma insert_row_Permutation r (df : list Row) : insert_row r df ≡ₚ r :: df.
Proof.
  induction df as [|r' df IH]; simpl; [done|].
  destruct (row_timestamp r <=? row_timestamp r'); [done|].
  by rewrite IH, Permutation_swap.
Qed.

Lemma insert_row_Sorted r (df : list Row) :
  Sorted by_timestamp df → Sorted by_timestamp (insert_row r df).
Proof.
  induction 1 as [|r' df Hdf IH Hhd]; simpl; [by repeat constructor|].
  destruct (Z.leb_spec (row_timestamp r) (row_timestamp r')) as [Hle|Hgt].
  - by repeat constructor.
  - constructor; [done|].
    destruct Hhd as [|r'' df Hr'']; simpl.
    + constructor. unfold by_timestamp. lia.
    + destruct (row_timestamp r <=? row_timestamp r''); constructor;
        [unfold by_timestamp; lia|done].
Qed.

Lemma insertion_sort_sorts (df : list Row) : sorts insertion_sort df.
Proof.
  split.
  - induction df as [|r df IH]; simpl; [done|].
    by rewrite insert_row_Permutation, IH.
  - induction df as [|r df IH]; simpl; [constructor|].
    by apply insert_row_Sorted.
Qed.

Lemma sequential_parallel_long_tracks_witness :
  ∃ sp_targets mp_targets : Targets,
    construct_target_vessels agent two_vessels (Some (query_at 50)) false 1 false
    = Ok sp_targets ∧
    construct_target_vessels agent two_vessels (Some (query_at 50)) false 4 false
    = Ok mp_targets ∧
    dom sp_targets = dom mp_targets ∧
    ∀ k, tracks <$> sp_targets !! k
         = (λ v, filter long (tracks v)) <$> mp_targets !! k.
Proof.
  apply sequential_parallel_long_tracks.
  - lia.
  - apply insertion_sort_sorts.
  - intros k. apply insertion_sort_sorts.
  - apply (bool_decide_unpack _). vm_compute. exact I.
  - repeat constructor.
Defined.

(** C1, the parallel path: two reports of one vessel further apart than the
    maximum gap leave a track of a single report in the result; the
    sequential path drops both. *)
Theorem parallel_path_keeps_single_report_track :
  (λ targets, tracks_of targets 111)
    <$> construct_target_vessels agent [row_at 111 0; row_at 111 5000]
          (Some (query_at 50)) false 4 false
  = Ok [[message_at 111 5000]]
  ∧ (λ targets, tracks_of targets 111)
      <$> construct_target_vessels agent [row_at 111 0; row_at 111 5000]
            (Some (query_at 50)) false 1 false
    = Ok [].
Proof. split; vm_compute; reflexivity. Qed.

Lemma sequential_tracks_long_witness : Forall long (tracks vessel_111).
Proof.
  apply (sequential_tracks_long agent
           [row_at 111 0; row_at 111 100; row_at 111 5000]
           (Some (query_at 50)) true {[ 111 := vessel_111 ]} 111 vessel_111).
  - vm_compute. reflexivity.
  - vm_compute. reflexivity.
Defined.

(** Three reports of one vessel at 0, 100 and 5000 seconds with a maximum
    gap of 1000 seconds: one track of two reports, on either path. *)
Lemma three_reports_one_track :
  (λ targets, tracks_of targets 111)
    <$> construct_target_vessels agent [row_at 111 0; row_at 111 100; row_at 111 5000]
          (Some (query_at 50)) false 1 false
  = Ok [[message_at 111 0; message_at 111 100]]
  ∧ (λ targets, tracks_of targets 111)
      <$> construct_target_vessels agent [row_at 111 0; row_at 111 100; row_at 111 5000]
            (Some (query_at 50)) false 4 false
    = Ok [[message_at 111 0; message_at 111 100]].
Proof. split; vm_compute; reflexivity. Qed.

(** C2, as stated, fails: with the overlap filter on, the sequential path
    drops the track of a vessel that does not span the query time and the
    parallel path, which has no such filter, keeps it. *)
Lemma overlap_filter_only_sequential :
  (λ targets, tracks_of targets 111)
    <$> construct_target_vessels agent [row_at 111 0; row_at 111 100]
          (Some (query_at 5000)) true 1 false
  = Ok []
  ∧ (λ targets, tracks_of targets 111)
      <$> construct_target_vessels agent [row_at 111 0; row_at 111 100]
            (Some (query_at 5000)) true 4 false
    = Ok [[message_at 111 0; message_at 111 100]].
Proof. split; vm_compute; reflexivity. Qed.

Lemma parallel_path_segments_witness :
  ∃ targets : Targets,
    _mp_construct_target_vessels agent two_vessels 4 false = Ok targets ∧
    ∀ k, match frame_of k two_vessels with
         | [] => targets !! k = None
         | frame =>
             ∃ v trs, targets !! k = Some v ∧ mmsi v = k ∧ ts v = None
               ∧ segmented (impl_message k <$> sort_values frame) trs
               ∧ tracks v = remove_short_in_place trs
         end.
Proof. apply parallel_path_segments. lia. Defined.

Lemma skip_tsplit_one_track_witness :
  ∃ targets : Targets,
    _mp_construct_target_vessels agent two_vessels 4 true = Ok targets ∧
    ∀ k, match frame_of k two_vessels with
         | [] => targets !! k = None
         | frame =>
             ∃ v, targets !! k = Some v ∧ mmsi v = k
               ∧ tracks v = filter long [impl_message k <$> sort_values frame]
         end.
Proof. apply skip_tsplit_one_track. lia. Defined.

Lemma paths_agree_iff_short_tracks_apart_witness :
  ∃ sp_targets mp_targets : Targets,
    construct_target_vessels agent two_vessels (Some (query_at 50)) false 1 false
    = Ok sp_targets ∧
    construct_target_vessels agent two_vessels (Some (query_at 50)) false 4 false
    = Ok mp_targets ∧
    ∀ k trs, segmented (sp_message <$> frame_of k (sort_values two_vessels)) trs →
      (tracks <$> sp_targets !! k = tracks <$> mp_targets !! k
       ↔ Forall (λ p, long p.1 ∨ long p.2) (adjacent trs)).
Proof.
  apply paths_agree_iff_short_tracks_apart.
  - lia.
  - apply insertion_sort_sorts.
  - intros k. apply insertion_sort_sorts.
  - apply (bool_decide_unpack _). vm_compute. exact I.
  - repeat constructor.
Defined.

Lemma tracks_unsplit_and_of_their_vessel_witness :
  mmsi vessel_111 = 111 ∧ Forall (unsplit_track_of 111) (tracks vessel_111).
Proof.
  apply (tracks_unsplit_and_of_their_vessel agent
           [row_at 111 0; row_at 111 100; row_at 111 5000]
           (Some (query_at 50)) true 1 {[ 111 := vessel_111 ]} 111 vessel_111).
  - vm_compute. reflexivity.
  - vm_compute. reflexivity.
Defined.
Lemma three_reports_keep_order (conv : Z → float) :
  Forall (λ r, Forall (λ r', row_timestamp r ≤ row_timestamp r' →
                 PrimFloat.leb (conv (row_timestamp r)) (conv (row_timestamp r')) = true)
                      [row_at 111 0; row_at 111 100; row_at 111 5000])
         [row_at 111 0; row_at 111 100; row_at 111 5000] →
  keeps_order conv [row_at 111 0; row_at 111 100; row_at 111 5000].
Proof.
  intros Hall r r' Hr Hr'. rewrite Forall_forall in Hall.
  specialize (Hall r Hr). rewrite Forall_forall in Hall. by apply Hall.
Qed.

Lemma tracks_in_time_order_witness : Forall in_time_order (tracks vessel_111).
Proof.
  apply (tracks_in_time_order agent
           [row_at 111 0; row_at 111 100; row_at 111 5000]
           (Some (query_at 50)) true 1 false {[ 111 := vessel_111 ]} 111 vessel_111).
  - apply insertion_sort_sorts.
  - apply three_reports_keep_order.
    repeat constructor; vm_compute; intros Hle; first [reflexivity|by destruct Hle].
  - apply three_reports_keep_order.
    repeat constructor; vm_compute; intros Hle; first [reflexivity|by destruct Hle].
  - vm_compute. reflexivity.
  - vm_compute. reflexivity.
Defined.
Lemma interpolation_drops_failures_witness :
  _interpolate_trajectories needs_a_track
    {[ 111 := vessel_with [[report_0; report_1]]; 222 := vessel_with [] ]} "linear"
  = Ok (omap (interpolated needs_a_track "linear")
          {[ 111 := vessel_with [[report_0; report_1]]; 222 := vessel_with [] ]}).
Proof.
  apply interpolation_drops_failures.
  apply map_Forall_insert_2; [done|]. by apply map_Forall_singleton.
Defined.

End construction_examples.

(** ** Kinematic corrections *)

Section corrections_facts.
Context `{Libm}.

Implicit Types (trs : list (list AISMessage)) (targets : Targets).

(** On two reports the body of the speed correction never raises: it
    replaces the later speed exactly when the time-mean speed is not strictly
    inside the band. *)
Lemma speed_correction_pair_reports (msg_t0 msg_t1 : AISMessage) :
  ∃ tms, _time_mean_speed msg_t0 msg_t1 = Ok tms ∧
    speed_correction_pair msg_t0 msg_t1 =
    Ok (if PrimFloat.ltb (PrimFloat.sub (SOG msg_t0)
                            (PrimFloat.sub (SOG msg_t1) (SOG msg_t0))) tms
           && PrimFloat.ltb tms (PrimFloat.add (SOG msg_t1)
                                   (PrimFloat.sub (SOG msg_t1) (SOG msg_t0)))
        then (msg_t1, false)
        else ({| sender := sender msg_t1; timestamp := timestamp msg_t1;
                 lat := lat msg_t1; lon := lon msg_t1; COG := COG msg_t1;
                 SOG := tms |}, true)).
Proof.
  eexists. split; [reflexivity|].
  unfold speed_correction_pair. cbn [_time_mean_speed message_attributes
    get_lat get_lon get_timestamp get_SOG set_SOG bind].
  match goal with |- context [negb ?c] => destruct c end; reflexivity.
Qed.

(** On two reports the body of the position correction never raises: it
    moves the later report to the dead-reckoned position exactly when the
    deviation is at most half the speed difference times the elapsed time. *)
Lemma position_correction_pair_reports `{Numpy} (msg_t0 msg_t1 : AISMessage) :
  let dt := PrimFloat.sub (timestamp msg_t1) (timestamp msg_t0) in
  let velocity := _break_down_velocity (SOG msg_t0) (COG msg_t0) in
  let lont1 := PrimFloat.add (lon msg_t0) (PrimFloat.mul velocity.1 dt) in
  let latt1 := PrimFloat.add (lat msg_t0) (PrimFloat.mul velocity.2 dt) in
  let est_pos :=
    PrimFloat.sqrt (PrimFloat.add (square (PrimFloat.sub lont1 (lon msg_t1)))
                                  (square (PrimFloat.sub latt1 (lat msg_t1)))) in
  position_correction_pair msg_t0 msg_t1 =
  Ok (if PrimFloat.leb est_pos
           (PrimFloat.mul
              (PrimFloat.mul 0.5 (PrimFloat.sub (SOG msg_t1) (SOG msg_t0))) dt)
      then ({| sender := sender msg_t1; timestamp := timestamp msg_t1;
               lat := latt1; lon := lont1; COG := COG msg_t1; SOG := SOG msg_t1 |},
            true)
      else (msg_t1, false)).
Proof.
  unfold position_correction_pair, _break_down_velocity.
  cbn [message_attributes get_lat get_lon get_timestamp get_SOG get_COG
       set_lat set_lon bind fst snd].
  match goal with |- context [if ?c then _ else _] => destruct c end; reflexivity.
Qed.

(** On the elements of [target.tracks], which are lists, either loop raises
    at its first pair. *)
Lemma speed_loop_on_tracks trs n :
  pairwise_loop speed_correction_pair trs n
  = if (2 <=? length trs)%nat then Raise AttributeError else Ok (trs, n).
Proof. by destruct trs as [|t0 [|t1 rest]]. Qed.

Lemma position_loop_on_tracks `{Numpy} trs n :
  pairwise_loop position_correction_pair trs n
  = if (2 <=? length trs)%nat then Raise AttributeError else Ok (trs, n).
Proof. by destruct trs as [|t0 [|t1 rest]]. Qed.

Lemma set_tracks_tracks (v : TargetShip) : set_tracks v (tracks v) = v.
Proof. by destruct v. Qed.

(** A walk over the vessels whose inner loop behaves as above raises when
    some vessel has two tracks or more, and changes nothing otherwise. *)
Lemma walk_on_tracks {S} (get : S → Z) (set : S → Z → S)
    (loop : list (list AISMessage) → Z → result (list (list AISMessage) * Z))
    (l : list (Z * TargetShip)) (self : S) targets :
  (∀ trs n, loop trs n
            = if (2 <=? length trs)%nat then Raise AttributeError else Ok (trs, n)) →
  (∀ s, set s (get s) = s) →
  Forall (λ kv, targets !! kv.1 = Some kv.2) l →
  foldlM (λ st kv, let* (trs, n) := loop (tracks kv.2) (get st.1) in
                   Ok (set st.1 n, <[ kv.1 := set_tracks kv.2 trs ]> st.2))
         (self, targets) l
  = if existsb (λ kv, (2 <=? length (tracks kv.2))%nat) l
    then Raise AttributeError else Ok (self, targets).
Proof.
  intros Hloop Hset. induction 1 as [|[k v] l Hkv _ IH]; [done|].
  cbn [foldlM existsb fst snd]. rewrite Hloop.
  destruct (2 <=? length (tracks v))%nat; [done|].
  cbn [bind orb]. by rewrite Hset, set_tracks_tracks, insert_id.
Qed.

Lemma map_to_list_lookups targets :
  Forall (λ kv, targets !! kv.1 = Some kv.2) (map_to_list targets).
Proof. apply Forall_forall. intros [k v]. apply elem_of_map_to_list. Qed.

(** [_speed_correction] corrects nothing: it raises when a vessel has two
    tracks or more and returns the targets as they were otherwise. *)
Lemma speed_correction_outcome (self : SearchAgent) targets :
  _speed_correction self targets
  = if existsb (λ kv, (2 <=? length (tracks kv.2))%nat) (map_to_list targets)
    then Raise AttributeError else Ok (self, targets).
Proof.
  apply (walk_on_tracks _n_speed_correction set_n_speed_correction).
  - apply speed_loop_on_tracks.
  - by intros [].
  - apply map_to_list_lookups.
Qed.

Lemma position_correction_outcome `{Numpy} (self : SearchAgent) targets :
  _position_correction self targets
  = if existsb (λ kv, (2 <=? length (tracks kv.2))%nat) (map_to_list targets)
    then Raise AttributeError else Ok (self, targets).
Proof.
  apply (walk_on_tracks _n_position_correction set_n_position_correction).
  - apply position_loop_on_tracks.
  - by intros [].
  - apply map_to_list_lookups.
Qed.


(** C3: between [report_0] and [report_1] the time-mean speed, 1, lies
    outside the band [10, 10], and the loop body run on the two reports would
    set the later speed to 1; [_speed_correction] leaves the vessel as it
    was, and raises [AttributeError] on a vessel with two tracks. *)
Theorem speed_correction_pairs_tracks :
  speed_correction_pair report_0 report_1
  = Ok ({| sender := 111; timestamp := 3600; lat := 57; lon := 8; COG := 0;
           SOG := 1 |}, true)
  ∧ _speed_correction agent {[ 111 := vessel_with [[report_0; report_1]] ]}
    = Ok (agent, {[ 111 := vessel_with [[report_0; report_1]] ]})
  ∧ _speed_correction agent
      {[ 111 := vessel_with [[report_0; report_1]; [report_0; report_1]] ]}
    = Raise AttributeError.
Proof.
  split.
  { unfold speed_correction_pair, _time_mean_speed, square.
    cbn [message_attributes get_lat get_lon get_timestamp get_SOG set_SOG bind
         report_0 report_1 lat lon timestamp SOG].
    change (PrimFloat.sub 57 56) with 1%float.
    change (PrimFloat.sub 8 8) with 0%float.
    rewrite pow2_one, pow2_zero. by vm_compute. }
  rewrite !speed_correction_outcome, !map_to_list_singleton. by split.
Qed.

(** C6: [_position_correction] leaves a vessel with one track as it was,
    whatever its reports, and raises [AttributeError] on a vessel with two
    tracks. *)
Theorem position_correction_pairs_tracks `{Numpy} (track : list AISMessage) :
  _position_correction agent {[ 111 := vessel_with [track] ]}
  = Ok (agent, {[ 111 := vessel_with [track] ]})
  ∧ _position_correction agent
      {[ 111 := vessel_with [[report_0; report_1]; [report_0; report_1]] ]}
    = Raise AttributeError.
Proof.
  rewrite !position_correction_outcome, !map_to_list_singleton. by split.
Qed.

End corrections_facts.

(** With a correctly rounded [pow], two reports an hour, three degrees of
    latitude and four of longitude apart have a time-mean speed of 5 degrees
    per hour. *)
Lemma time_mean_speed_example :
  @_time_mean_speed _ _ rounded_pow
    {| sender := 111; timestamp := 0; lat := 54; lon := 8; COG := 0; SOG := 10 |}
    {| sender := 111; timestamp := 3600; lat := 57; lon := 12; COG := 0; SOG := 10 |}
  = Ok 5%float.
Proof. by vm_compute. Qed.

(** ** The inspector *)

Section inspector_facts.

Implicit Types (self : Inspector) (v : TargetShip) (track : list AISMessage)
  (target : Targets) (verdict : list AISMessage → bool).

Lemma copy_track_fresh v target track :
  target !! mmsi v = None →
  _copy_track v target track = <[ mmsi v := set_tracks v [track] ]> target.
Proof.
  intros Hfresh. unfold _copy_track. rewrite Hfresh.
  by rewrite alter_insert_eq.
Qed.

Lemma copy_track_present v target trs track :
  _copy_track v (<[ mmsi v := set_tracks v trs ]> target) track
  = <[ mmsi v := set_tracks v (trs ++ [track]) ]> target.
Proof.
  unfold _copy_track. rewrite lookup_insert_eq.
  by rewrite alter_insert_eq.
Qed.

Lemma copy_track_with_entry v base trs track :
  base !! mmsi v = None →
  _copy_track v (with_entry v trs base) track = with_entry v (trs ++ [track]) base.
Proof.
  intros Hfresh. destruct trs as [|t trs]; simpl.
  - by apply copy_track_fresh.
  - apply (copy_track_present v base (t :: trs)).
Qed.

(** The inner loop, over the tracks of one vessel not seen before. *)
Lemma inspect_tracks v verdict self n (trs : list (list AISMessage)) :
  Forall (λ track, recipe self track = Ok (verdict track)) trs →
  accepted self !! mmsi v = None → rejected self !! mmsi v = None →
  foldlM (inspect_track v) (self, n) trs
  = Ok ({| data := data self; recipe := recipe self;
           rejected := with_entry v (filter (λ t, verdict t = true) trs) (rejected self);
           accepted := with_entry v (filter (λ t, verdict t = false) trs) (accepted self) |},
        n + Z.of_nat (length trs)).
Proof.
  intros Hverdict Ha Hr. induction trs as [|track trs IH] using rev_ind.
  { simpl. destruct self. do 2 f_equal. lia. }
  apply Forall_app in Hverdict as [Hpre Htrack%Forall_inv].
  rewrite foldlM_app, (IH Hpre). cbn [bind foldlM inspect_track recipe].
  rewrite Htrack. cbn [bind]. rewrite !filter_app, !filter_cons, !filter_nil.
  rewrite length_app. simpl length.
  destruct (verdict track); cbn [bind]; unfold reject_track, accept_track;
    cbn [data recipe rejected accepted];
    rewrite copy_track_with_entry by done;
    repeat case_decide; try congruence;
    rewrite app_nil_r; do 2 f_equal; lia.
Qed.

Lemma lookup_with_entry v trs base k :
  base !! mmsi v = None →
  with_entry v trs base !! k
  = if decide (k = mmsi v)
    then match trs with [] => None | _ => Some (set_tracks v trs) end
    else base !! k.
Proof.
  intros Hfresh. destruct trs as [|t trs]; simpl.
  - destruct (decide (k = mmsi v)) as [->|]; done.
  - destruct (decide (k = mmsi v)) as [->|].
    + by rewrite lookup_insert_eq.
    + by rewrite lookup_insert_ne.
Qed.

Lemma inspect_items_cons kv (items : list (Z * TargetShip)) st :
  inspect_items (kv :: items) st
  = let* st := foldlM (inspect_track kv.2) st (tracks kv.2) in
    inspect_items items st.
Proof. done. Qed.

(** The two loops over items with distinct keys, each vessel filed under its
    own MMSI, none of them in the collections yet. *)
Lemma inspect_items_spec verdict (items : list (Z * TargetShip)) self n :
  NoDup items.*1 →
  Forall (λ kv, mmsi kv.2 = kv.1) items →
  Forall (λ kv, Forall (λ track, recipe self track = Ok (verdict track))
                       (tracks kv.2)) items →
  Forall (λ kv, accepted self !! kv.1 = None ∧ rejected self !! kv.1 = None) items →
  ∃ self',
    inspect_items items (self, n)
    = Ok (self', n + foldr (λ kv m, Z.of_nat (length (tracks kv.2)) + m) 0 items) ∧
    ∀ k,
      accepted self' !! k
      = match (list_to_map items : Targets) !! k with
        | Some v => routed verdict false v
        | None => accepted self !! k
        end ∧
      rejected self' !! k
      = match (list_to_map items : Targets) !! k with
        | Some v => routed verdict true v
        | None => rejected self !! k
        end.
Proof.
  revert self n. induction items as [|[k0 v0] items IH]; intros self n.
  { intros _ _ _ _. exists self. split; [simpl; do 2 f_equal; lia|].
    intros k. unfold list_to_map. cbn [foldr]. by rewrite lookup_empty. }
  rewrite fmap_cons, NoDup_cons, !Forall_cons. simpl fst. simpl snd.
  intros [Hk0 Hnodup] [Hmmsi Hmmsis] [Hverdict Hverdicts] [[Ha Hr] Hfresh].
  rewrite inspect_items_cons. cbn [snd].
  rewrite <- Hmmsi in Ha, Hr.
  rewrite (inspect_tracks v0 verdict self n (tracks v0) Hverdict Ha Hr).
  cbn [bind].
  set (self1 := {| data := data self; recipe := recipe self;
                   rejected := with_entry v0 (filter (λ t, verdict t = true) (tracks v0))
                                 (rejected self);
                   accepted := with_entry v0 (filter (λ t, verdict t = false) (tracks v0))
                                 (accepted self) |}).
  destruct (IH self1 (n + Z.of_nat (length (tracks v0))) Hnodup Hmmsis)
    as (self' & Hrun & Hspec).
  { done. }
  { rewrite Forall_forall in *. intros [k v] Hkv. simpl.
    destruct (Hfresh _ Hkv) as [Hka Hkr]. simpl in Hka, Hkr.
    assert (k ≠ mmsi v0) as Hne.
    { rewrite Hmmsi. intros ->. apply Hk0, list_elem_of_fmap.
      by exists (k0, v). }
    rewrite !lookup_with_entry by done.
    destruct (decide (k = mmsi v0)); [done|]. by split. }
  exists self'. split.
  { rewrite Hrun. do 2 f_equal. simpl. lia. }
  intros k. destruct (Hspec k) as [Hka Hkr]. rewrite Hka, Hkr.
  rewrite list_to_map_cons.
  destruct (decide (k0 = k)) as [<-|Hne].
  - rewrite lookup_insert_eq.
    rewrite (not_elem_of_list_to_map_1 (M := gmap Z)) by done.
    simpl. rewrite !lookup_with_entry by done.
    rewrite !decide_True by done. unfold routed.
    split; by match goal with |- context [filter ?P (tracks v0)] =>
                destruct (filter P (tracks v0)) end.
  - rewrite lookup_insert_ne by done.
    destruct ((list_to_map items : Targets) !! k); [done|].
    simpl. rewrite !lookup_with_entry by done.
    rewrite !decide_False by congruence. done.
Qed.

Lemma all_tracks_insert target k (x : TargetShip) :
  target !! k = None → all_tracks (<[ k := x ]> target) ≡ₚ tracks x ++ all_tracks target.
Proof.
  intros Hfresh. unfold all_tracks. by rewrite map_to_list_insert.
Qed.

(** A track copied into a collection is one more track there. *)
Lemma all_tracks_copy_track v target track :
  all_tracks (_copy_track v target track) ≡ₚ track :: all_tracks target.
Proof.
  unfold _copy_track. destruct (target !! mmsi v) as [entry|] eqn:Hentry.
  - rewrite <- (insert_delete_id target (mmsi v) entry Hentry) at 1.
    rewrite alter_insert_eq, all_tracks_insert by apply lookup_delete_eq.
    rewrite <- (insert_delete_id target (mmsi v) entry Hentry) at 2.
    rewrite all_tracks_insert by apply lookup_delete_eq. simpl.
    rewrite <- app_assoc. cbn [app]. by rewrite <- Permutation_middle.
  - by rewrite alter_insert_eq, all_tracks_insert.
Qed.

(** The inner loop, whatever the collections hold: every track of the
    vessel is one more track on the side of its verdict. *)
Lemma inspect_tracks_all v verdict (trs : list (list AISMessage)) self n :
  Forall (λ track, recipe self track = Ok (verdict track)) trs →
  ∃ self',
    foldlM (inspect_track v) (self, n) trs = Ok (self', n + Z.of_nat (length trs))
    ∧ recipe self' = recipe self
    ∧ all_tracks (accepted self')
      ≡ₚ all_tracks (accepted self) ++ filter (λ t, verdict t = false) trs
    ∧ all_tracks (rejected self')
      ≡ₚ all_tracks (rejected self) ++ filter (λ t, verdict t = true) trs.
Proof.
  revert self n. induction trs as [|track trs IH]; intros self n Hverdict.
  { exists self. rewrite !filter_nil, !app_nil_r. simpl.
    split_and!; [do 2 f_equal; lia|done..]. }
  apply Forall_cons in Hverdict as [Htrack Hrest].
  cbn [foldlM inspect_track]. rewrite Htrack. cbn [bind].
  rewrite !filter_cons.
  destruct (verdict track) eqn:Hv.
  - destruct (IH (reject_track self v track) (n + 1)) as (self' & Hrun & Hrec & Ha & Hr);
      [done|].
    exists self'. cbn [bind]. rewrite Hrun, Hrec, Ha, Hr. simpl.
    rewrite all_tracks_copy_track.
    split_and!; [do 2 f_equal; lia|done|done|].
    by rewrite <- Permutation_middle.
  - destruct (IH (accept_track self v track) (n + 1)) as (self' & Hrun & Hrec & Ha & Hr);
      [done|].
    exists self'. cbn [bind]. rewrite Hrun, Hrec, Ha, Hr. simpl.
    rewrite all_tracks_copy_track.
    split_and!; [do 2 f_equal; lia|done| |done].
    by rewrite <- Permutation_middle.
Qed.

(** The two loops, whatever the keys and whatever the collections hold. *)
Lemma inspect_items_all verdict (items : list (Z * TargetShip)) self n :
  Forall (λ kv, Forall (λ track, recipe self track = Ok (verdict track))
                       (tracks kv.2)) items →
  ∃ self',
    inspect_items items (self, n)
    = Ok (self', n + foldr (λ kv m, Z.of_nat (length (tracks kv.2)) + m) 0 items)
    ∧ all_tracks (accepted self')
      ≡ₚ all_tracks (accepted self)
         ++ filter (λ t, verdict t = false) (concat ((λ kv, tracks kv.2) <$> items))
    ∧ all_tracks (rejected self')
      ≡ₚ all_tracks (rejected self)
         ++ filter (λ t, verdict t = true) (concat ((λ kv, tracks kv.2) <$> items)).
Proof.
  revert self n. induction items as [|[k v] items IH]; intros self n Hverdict.
  { exists self. simpl. rewrite !filter_nil, !app_nil_r.
    split_and!; [do 2 f_equal; lia|done..]. }
  apply Forall_cons in Hverdict as [Hv Hrest]. simpl in Hv.
  rewrite inspect_items_cons. cbn [snd].
  destruct (inspect_tracks_all v verdict (tracks v) self n Hv)
    as (self1 & -> & Hrec & Ha1 & Hr1).
  cbn [bind].
  destruct (IH self1 (n + Z.of_nat (length (tracks v)))) as (self' & Hrun & Ha & Hr).
  { eapply Forall_impl; [exact Hrest|]. intros kv. by rewrite Hrec. }
  exists self'. rewrite Hrun, Ha, Hr, Ha1, Hr1. simpl.
  rewrite !filter_app, <- !app_assoc.
  split_and!; [do 2 f_equal; lia|done..].
Qed.

Lemma inspect_items_no_tracks (items : list (Z * TargetShip)) self n :
  Forall (λ kv, tracks kv.2 = []) items →
  inspect_items items (self, n) = Ok (self, n).
Proof.
  induction 1 as [|[k v] items Hv _ IH]; [done|].
  rewrite inspect_items_cons. simpl in Hv. cbn [snd]. rewrite Hv.
  cbn [foldlM bind]. apply IH.
Qed.

End inspector_facts.

Section inspector_theorems.

Implicit Types (targets : Targets) (verdict : list AISMessage → bool).

(** Of the tracks of a vessel, those with verdict [false] and those with
    verdict [true] are all of them, each once. *)
Lemma routed_partition verdict (v : TargetShip) :
  default [] (tracks <$> routed verdict false v)
  ++ default [] (tracks <$> routed verdict true v) ≡ₚ tracks v.
Proof.
  assert (∀ b, default [] (tracks <$> routed verdict b v)
               = filter (λ track, verdict track = b) (tracks v)) as Hb.
  { intros b. unfold routed.
    by destruct (filter (λ track, verdict track = b) (tracks v)). }
  rewrite !Hb.
  rewrite (list_filter_iff (λ track, verdict track = true)
             (λ track, ¬ verdict track = false)).
  - apply filter_app_complement.
  - intros track. destruct (verdict track); split; congruence.
Qed.

(** C7: a partition run of a fresh inspector returns, with the number of
    tracks of the collection as its count; the tracks of the accepted
    collection are the tracks of the input with verdict [false] and those of
    the rejected collection the tracks with verdict [true], each as often as
    in the input, so that both together are the tracks of the input; and in
    a collection keyed by MMSI the accepted entry of a vessel is a copy of the
    vessel holding its tracks of verdict [false], the rejected entry a copy
    holding its tracks of verdict [true], in their order, a side that
    receives no track having no entry. *)
Theorem partition_run targets (r : Recipe) verdict :
  map_Forall (λ _ v, Forall (λ track, cook r track = Ok (verdict track))
                            (tracks v)) targets →
  ∃ self' accepted' rejected',
    _inspect_impl (Inspector_init targets r) targets
    = Ok (self', (accepted', rejected', count_tracks targets))
    ∧ all_tracks accepted' ≡ₚ filter (λ t, verdict t = false) (all_tracks targets)
    ∧ all_tracks rejected' ≡ₚ filter (λ t, verdict t = true) (all_tracks targets)
    ∧ all_tracks accepted' ++ all_tracks rejected' ≡ₚ all_tracks targets
    ∧ (map_Forall (λ k v, mmsi v = k) targets →
       ∀ k, accepted' !! k = targets !! k ≫= routed verdict false
            ∧ rejected' !! k = targets !! k ≫= routed verdict true).
Proof.
  intros Hverdict. unfold _inspect_impl.
  assert (Forall (λ kv : Z * TargetShip,
            Forall (λ track, recipe (Inspector_init targets r) track
                             = Ok (verdict track)) (tracks kv.2))
                 (map_to_list targets)) as Hitems.
  { apply map_Forall_to_list in Hverdict.
    eapply Forall_impl; [exact Hverdict|]. by intros [k v]. }
  destruct (inspect_items_all verdict (map_to_list targets)
              (Inspector_init targets r) 0 Hitems) as (self' & Hrun & Ha & Hr).
  rewrite Hrun. cbn [bind]. exists self', (accepted self'), (rejected self').
  change (all_tracks (accepted (Inspector_init targets r))) with (all_tracks ∅) in Ha.
  change (all_tracks (rejected (Inspector_init targets r))) with (all_tracks ∅) in Hr.
  unfold all_tracks at 2 in Ha. unfold all_tracks at 2 in Hr.
  rewrite map_to_list_empty in Ha, Hr. simpl in Ha, Hr.
  fold (all_tracks targets) in Ha, Hr.
  split_and!; [done..| |].
  - rewrite Ha, Hr.
    rewrite (list_filter_iff (λ t, verdict t = true) (λ t, ¬ verdict t = false)).
    + apply filter_app_complement.
    + intros track. destruct (verdict track); split; congruence.
  - intros Hkeys k.
    destruct (inspect_items_spec verdict (map_to_list targets)
                (Inspector_init targets r) 0) as (self'' & Hrun' & Hspec).
    + apply NoDup_fst_map_to_list.
    + apply map_Forall_to_list in Hkeys.
      eapply Forall_impl; [exact Hkeys|]. by intros [k' v].
    + done.
    + apply Forall_forall. intros kv _. simpl. by rewrite !lookup_empty.
    + rewrite Hrun in Hrun'. injection Hrun' as <-.
      destruct (Hspec k) as [-> ->].
      rewrite list_to_map_to_list. simpl. rewrite !lookup_empty.
      by destruct (targets !! k).
Qed.

(** C9: when no vessel of the collection has a track, the sequential
    inspection raises [ZeroDivisionError] instead of returning. *)
Theorem inspect_without_tracks (self : Inspector) :
  map_Forall (λ _ v, tracks v = []) (data self) →
  inspect_sequential self = Raise ZeroDivisionError.
Proof.
  intros Hempty. unfold inspect_sequential, _inspect_impl.
  rewrite inspect_items_no_tracks; [done|].
  apply map_Forall_to_list in Hempty.
  eapply Forall_impl; [exact Hempty|]. by intros [k v].
Qed.

(** With at least one track in the collection the sequential inspection
    returns what [_inspect_impl] returns. *)
Lemma inspect_with_tracks (self self' : Inspector) (a r : Targets) (n : Z) :
  _inspect_impl self (data self) = Ok (self', (a, r, n)) → n ≠ 0 →
  inspect_sequential self = Ok (self', (a, r)).
Proof.
  intros Hrun Hn. unfold inspect_sequential. rewrite Hrun. cbn [bind].
  unfold print_rejection_rate, py_truediv.
  destruct (Z.eqb_spec n 0) as [?|_]; done.
Qed.

End inspector_theorems.

(** ** The inspector keeps its state between runs *)

Section inspector_state.

Implicit Types (self : Inspector) (v : TargetShip) (track : list AISMessage)
  (targets : Targets) (verdict : list AISMessage → bool).

Lemma inspect_tracks_data v (trs : list (list AISMessage)) self n self' n' :
  foldlM (inspect_track v) (self, n) trs = Ok (self', n') →
  data self' = data self ∧ recipe self' = recipe self.
Proof.
  revert self n. induction trs as [|track trs IH]; intros self n; simpl.
  { by intros [= <- _]. }
  destruct (recipe self track) as [[]|e]; simpl; [| |done];
    intros Hrun; by destruct (IH _ _ Hrun).
Qed.

Lemma inspect_items_data (items : list (Z * TargetShip)) self n self' n' :
  inspect_items items (self, n) = Ok (self', n') →
  data self' = data self ∧ recipe self' = recipe self.
Proof.
  revert self n. induction items as [|[k v] items IH]; intros self n.
  { by intros [= <- _]. }
  rewrite inspect_items_cons. cbn [snd].
  destruct (foldlM (inspect_track v) (self, n) (tracks v)) as [[self1 n1]|e] eqn:Hv;
    cbn [bind]; [|done].
  intros Hrun. destruct (inspect_tracks_data _ _ _ _ _ _ Hv) as [<- <-].
  by apply (IH self1 n1).
Qed.

Lemma count_tracks_length targets :
  count_tracks targets = Z.of_nat (length (all_tracks targets)).
Proof.
  unfold count_tracks, all_tracks.
  induction (map_to_list targets) as [|[k v] l IH]; [done|].
  simpl. rewrite IH, length_app, Nat2Z.inj_add. done.
Qed.

Lemma all_tracks_empty : all_tracks ∅ = [].
Proof. unfold all_tracks. by rewrite map_to_list_empty. Qed.

(** A run of [_inspect_impl] from any state of the inspector. *)
Lemma inspect_impl_adds verdict self targets :
  map_Forall (λ _ v, Forall (λ track, recipe self track = Ok (verdict track))
                            (tracks v)) targets →
  ∃ self',
    _inspect_impl self targets
    = Ok (self', (accepted self', rejected self', count_tracks targets))
    ∧ data self' = data self ∧ recipe self' = recipe self
    ∧ all_tracks (accepted self')
      ≡ₚ all_tracks (accepted self)
         ++ filter (λ t, verdict t = false) (all_tracks targets)
    ∧ all_tracks (rejected self')
      ≡ₚ all_tracks (rejected self)
         ++ filter (λ t, verdict t = true) (all_tracks targets).
Proof.
  intros Hverdict. unfold _inspect_impl.
  destruct (inspect_items_all verdict (map_to_list targets) self 0)
    as (self' & Hrun & Ha & Hr).
  { apply map_Forall_to_list in Hverdict.
    eapply Forall_impl; [exact Hverdict|]. by intros [k v]. }
  rewrite Hrun. cbn [bind]. exists self'.
  destruct (inspect_items_data _ _ _ _ _ Hrun) as [Hdata Hrecipe].
  split_and!; done.
Qed.

(** The inspector keeps what it filed: a second sequential inspection of
    the same inspector files every track once more, so that the collections
    it returns hold each track twice. *)
Theorem second_inspection_files_again targets (r : Recipe) verdict :
  map_Forall (λ _ v, Forall (λ track, cook r track = Ok (verdict track))
                            (tracks v)) targets →
  all_tracks targets ≠ [] →
  ∃ self1 a1 r1 self2 a2 r2,
    inspect_sequential (Inspector_init targets r) = Ok (self1, (a1, r1))
    ∧ inspect_sequential self1 = Ok (self2, (a2, r2))
    ∧ all_tracks a2 ≡ₚ all_tracks a1 ++ all_tracks a1
    ∧ all_tracks r2 ≡ₚ all_tracks r1 ++ all_tracks r1.
Proof.
  intros Hverdict Htracks.
  assert (count_tracks targets ≠ 0) as Hcount.
  { rewrite count_tracks_length. destruct (all_tracks targets); [done|simpl; lia]. }
  destruct (inspect_impl_adds verdict (Inspector_init targets r) targets Hverdict)
    as (self1 & Hrun1 & Hdata1 & Hrecipe1 & Ha1 & Hr1).
  destruct (inspect_impl_adds verdict self1 targets)
    as (self2 & Hrun2 & _ & _ & Ha2 & Hr2).
  { by rewrite Hrecipe1. }
  simpl in Hdata1. rewrite <- Hdata1 in Hrun2 at 1.
  exists self1, (accepted self1), (rejected self1),
         self2, (accepted self2), (rejected self2).
  split_and!.
  - by apply (inspect_with_tracks (Inspector_init targets r) _ _ _ _ Hrun1).
  - by apply (inspect_with_tracks _ _ _ _ _ Hrun2).
  - rewrite Ha2. f_equiv. rewrite Ha1. cbn [Inspector_init accepted].
    by rewrite all_tracks_empty.
  - rewrite Hr2. f_equiv. rewrite Hr1. cbn [Inspector_init rejected].
    by rewrite all_tracks_empty.
Qed.

End inspector_state.

(** ** A rule that raises *)

Section inspector_errors.

Implicit Types (self : Inspector) (v : TargetShip) (track : list AISMessage)
  (targets : Targets).

(** The inner loop either files every track, the recipe having returned on
    each, or raises what the recipe raised on one of them. *)
Lemma inspect_tracks_outcome v (trs : list (list AISMessage)) self n :
  match foldlM (inspect_track v) (self, n) trs with
  | Ok (self', _) =>
      recipe self' = recipe self
      ∧ Forall (λ track, ∃ b, recipe self track = Ok b) trs
  | Raise e => ∃ track, track ∈ trs ∧ recipe self track = Raise e
  end.
Proof.
  revert self n. induction trs as [|track trs IH]; intros self n; simpl; [done|].
  destruct (recipe self track) as [b|e] eqn:Htrack; simpl.
  2:{ exists track. split; [by left|done]. }
  set (self1 := if b then reject_track self v track else accept_track self v track).
  assert (recipe self1 = recipe self) as Hrecipe by (by destruct b).
  specialize (IH self1 (n + 1)).
  replace (if b then Ok (reject_track self v track, n + 1)
           else Ok (accept_track self v track, n + 1))
    with (Ok (A := Inspector * Z) (self1, n + 1)) by (by destruct b).
  simpl. destruct (foldlM (inspect_track v) (self1, n + 1) trs) as [[self' n']|e].
  - destruct IH as [-> Hall]. split; [done|]. constructor; [eauto|].
    eapply Forall_impl; [exact Hall|]. intros t. by rewrite Hrecipe.
  - destruct IH as (t & Ht & He). exists t. split; [by right|].
    by rewrite <- Hrecipe.
Qed.

Lemma inspect_items_outcome (items : list (Z * TargetShip)) self n :
  match inspect_items items (self, n) with
  | Ok (self', _) =>
      Forall (λ kv, Forall (λ track, ∃ b, recipe self track = Ok b) (tracks kv.2))
             items
  | Raise e =>
      ∃ kv track, kv ∈ items ∧ track ∈ tracks kv.2 ∧ recipe self track = Raise e
  end.
Proof.
  revert self n. induction items as [|[k v] items IH]; intros self n;
    [by constructor|].
  rewrite inspect_items_cons. cbn [snd].
  pose proof (inspect_tracks_outcome v (tracks v) self n) as Hv.
  destruct (foldlM (inspect_track v) (self, n) (tracks v)) as [[self1 n1]|e];
    cbn [bind].
  - destruct Hv as [Hrecipe Hv]. specialize (IH self1 n1).
    destruct (inspect_items items (self1, n1)) as [[self' n']|e].
    + constructor; [done|]. eapply Forall_impl; [exact IH|].
      intros kv. simpl. by rewrite Hrecipe.
    + destruct IH as (kv & track & Hkv & Htrack & He).
      exists kv, track. split_and!; [by right|done|by rewrite <- Hrecipe].
  - destruct Hv as (track & Htrack & He). exists (k, v), track.
    split_and!; [by left|done..].
Qed.

(** When the recipe raises on a track of the collection, [_inspect_impl]
    raises: the exception is one the recipe raised on a track of the
    collection, and nothing is returned. *)
Theorem inspection_raises_what_a_rule_raises self targets k v track e :
  targets !! k = Some v → track ∈ tracks v → recipe self track = Raise e →
  ∃ e' k' v' track',
    _inspect_impl self targets = Raise e'
    ∧ targets !! k' = Some v' ∧ track' ∈ tracks v'
    ∧ recipe self track' = Raise e'.
Proof.
  intros Hk Htrack He. unfold _inspect_impl.
  pose proof (inspect_items_outcome (map_to_list targets) self 0) as Hrun.
  destruct (inspect_items (map_to_list targets) (self, 0)) as [[self' n']|e'].
  - rewrite Forall_forall in Hrun.
    specialize (Hrun (k, v)). simpl in Hrun.
    rewrite Forall_forall in Hrun.
    destruct (Hrun (proj2 (elem_of_map_to_list targets k v) Hk) track Htrack)
      as [b Hb].
    congruence.
  - destruct Hrun as ([k' v'] & track' & Hkv & Htrack' & He').
    exists e', k', v', track'. split_and!; [done| |done..].
    by apply elem_of_map_to_list.
Qed.

End inspector_errors.

Section inspector_examples.

Lemma partition_run_witness :
  ∃ self' accepted' rejected',
    _inspect_impl (Inspector_init mixed_vessel fewer_than_two) mixed_vessel
    = Ok (self', (accepted', rejected', count_tracks mixed_vessel))
    ∧ all_tracks accepted'
      ≡ₚ filter (λ t, too_few_obs t 2 = false) (all_tracks mixed_vessel)
    ∧ all_tracks rejected'
      ≡ₚ filter (λ t, too_few_obs t 2 = true) (all_tracks mixed_vessel)
    ∧ all_tracks accepted' ++ all_tracks rejected' ≡ₚ all_tracks mixed_vessel
    ∧ (map_Forall (λ k v, mmsi v = k) mixed_vessel →
       ∀ k, accepted' !! k
            = mixed_vessel !! k ≫= routed (λ track, too_few_obs track 2) false
            ∧ rejected' !! k
              = mixed_vessel !! k ≫= routed (λ track, too_few_obs track 2) true).
Proof.
  apply partition_run.
  apply map_Forall_singleton. by repeat constructor.
Defined.

(** The same vessel ends up on both sides: its track of two reports is
    accepted, its track of one report rejected. *)
Lemma partition_run_example :
  (λ out, (out.2.1.1 !! 111, out.2.1.2 !! 111, out.2.2))
    <$> _inspect_impl (Inspector_init mixed_vessel fewer_than_two) mixed_vessel
  = Ok (Some (vessel_with [[report_0; report_1]]),
        Some (vessel_with [[report_0]]), 2).
Proof. vm_compute. reflexivity. Qed.

Lemma inspect_without_tracks_witness :
  inspect_sequential (Inspector_init {[ 111 := vessel_with [] ]} fewer_than_two)
  = Raise ZeroDivisionError
  ∧ inspect_sequential (Inspector_init ∅ fewer_than_two) = Raise ZeroDivisionError.
Proof.
  split; apply inspect_without_tracks.
  - by apply map_Forall_singleton.
  - apply map_Forall_empty.
Defined.

Lemma second_inspection_files_again_witness :
  ∃ self1 a1 r1 self2 a2 r2,
    inspect_sequential (Inspector_init mixed_vessel fewer_than_two) = Ok (self1, (a1, r1))
    ∧ inspect_sequential self1 = Ok (self2, (a2, r2))
    ∧ all_tracks a2 ≡ₚ all_tracks a1 ++ all_tracks a1
    ∧ all_tracks r2 ≡ₚ all_tracks r1 ++ all_tracks r1.
Proof.
  apply (second_inspection_files_again mixed_vessel fewer_than_two
           (λ track, too_few_obs track 2)).
  - apply map_Forall_singleton. by repeat constructor.
  - unfold all_tracks, mixed_vessel. by rewrite map_to_list_singleton.
Defined.

Lemma inspection_raises_what_a_rule_raises_witness :
  ∃ e' k' v' track',
    _inspect_impl
      (Inspector_init mixed_vessel {| funcs := [def_rule_kwonly (λ _, Ok true)] |}) mixed_vessel
    = Raise e'
    ∧ mixed_vessel !! k' = Some v' ∧ track' ∈ tracks v'
    ∧ recipe (Inspector_init mixed_vessel {| funcs := [def_rule_kwonly (λ _, Ok true)] |}) track'
      = Raise e'.
Proof.
  apply (inspection_raises_what_a_rule_raises
           (Inspector_init mixed_vessel {| funcs := [def_rule_kwonly (λ _, Ok true)] |}) mixed_vessel
           111 (vessel_with [[report_0]; [report_0; report_1]]) [report_0] TypeError).
  - apply lookup_singleton_eq.
  - by left.
  - reflexivity.
Defined.

End inspector_examples.

(** ** Order of the floats, and spans *)

Section float_order.

Implicit Types (x y z : float) (a b c : Z * Z * Z).

Lemma SFcompare_rank (f1 f2 : spec_float) :
  f1 ≠ S754_nan → f2 ≠ S754_nan →
  SFcompare f1 f2 = Some (rank_compare (rank f1) (rank f2)).
Proof.
  intros H1 H2.
  destruct f1 as [s1| s1| |s1 m1 e1], f2 as [s2|s2| |s2 m2 e2]; try done;
    try destruct s1; try destruct s2; try done; unfold rank_compare; simpl.
  rewrite !Z.compare_opp, (Z.compare_antisym e1 e2).
  by destruct (e1 ?= e2).
Qed.

Lemma nan_dec (f : spec_float) : {f = S754_nan} + {f ≠ S754_nan}.
Proof. destruct f; (by left) || (by right). Qed.

Lemma SFcompare_nan (f1 f2 : spec_float) :
  f1 = S754_nan ∨ f2 = S754_nan → SFcompare f1 f2 = None.
Proof. intros [-> | ->]; [done|]. by destruct f1. Qed.

Ltac rank_order :=
  unfold rank_compare;
  repeat match goal with a : (Z * Z * Z)%type |- _ => destruct a as [[? ?] ?] end;
  simpl;
  repeat match goal with
         | |- context [?u ?= ?v] => destruct (Z.compare_spec u v)
         | H : context [?u ?= ?v] |- _ => destruct (Z.compare_spec u v)
         end;
  try done; try lia.

Lemma rank_compare_refl a : rank_compare a a = Eq.
Proof. rank_order. Qed.

Lemma rank_compare_total a b : rank_compare a b ≠ Lt → rank_compare b a ≠ Gt.
Proof. rank_order. Qed.

Lemma rank_compare_le_lt a b c :
  rank_compare a b ≠ Gt → rank_compare b c = Lt → rank_compare a c = Lt.
Proof. rank_order. Qed.

Lemma rank_compare_lt_le a b c :
  rank_compare a b = Lt → rank_compare b c ≠ Gt → rank_compare a c = Lt.
Proof. rank_order. Qed.

Lemma is_nan_false x : PrimFloat.is_nan x = false → Prim2SF x ≠ S754_nan.
Proof.
  unfold PrimFloat.is_nan. rewrite FloatAxioms.eqb_spec. intros Heq Hnan.
  by rewrite Hnan in Heq.
Qed.

Lemma is_nan_true x : PrimFloat.is_nan x = true → Prim2SF x = S754_nan.
Proof.
  unfold PrimFloat.is_nan. rewrite FloatAxioms.eqb_spec. unfold SFeqb.
  destruct (nan_dec (Prim2SF x)) as [|Hx]; [done|].
  by rewrite SFcompare_rank, rank_compare_refl.
Qed.

Lemma leb_rank x y :
  PrimFloat.leb x y = true ↔
  Prim2SF x ≠ S754_nan ∧ Prim2SF y ≠ S754_nan
  ∧ rank_compare (rank (Prim2SF x)) (rank (Prim2SF y)) ≠ Gt.
Proof.
  rewrite FloatAxioms.leb_spec. unfold SFleb.
  destruct (nan_dec (Prim2SF x)) as [Hx|Hx].
  { rewrite SFcompare_nan by auto. split; [done|tauto]. }
  destruct (nan_dec (Prim2SF y)) as [Hy|Hy].
  { rewrite SFcompare_nan by auto. split; [done|tauto]. }
  rewrite SFcompare_rank by done.
  destruct (rank_compare _ _);
    (split; [by intros; split_and!|by intros (_ & _ & ?)]).
Qed.

Lemma ltb_rank x y :
  PrimFloat.ltb x y = true ↔
  Prim2SF x ≠ S754_nan ∧ Prim2SF y ≠ S754_nan
  ∧ rank_compare (rank (Prim2SF x)) (rank (Prim2SF y)) = Lt.
Proof.
  rewrite FloatAxioms.ltb_spec. unfold SFltb.
  destruct (nan_dec (Prim2SF x)) as [Hx|Hx].
  { rewrite SFcompare_nan by auto. split; [done|tauto]. }
  destruct (nan_dec (Prim2SF y)) as [Hy|Hy].
  { rewrite SFcompare_nan by auto. split; [done|tauto]. }
  rewrite SFcompare_rank by done.
  destruct (rank_compare _ _);
    (split; [by intros; split_and!|by intros (_ & _ & ?)]).
Qed.

(** A number that is not NaN is at most itself. *)
Lemma leb_refl x : PrimFloat.is_nan x = false → PrimFloat.leb x x = true.
Proof.
  intros Hx%is_nan_false. apply leb_rank. split_and!; [done..|].
  by rewrite rank_compare_refl.
Qed.

(** Of two numbers that are not NaN, one is less than the other or the
    other is at most the one. *)
Lemma ltb_false_leb x y :
  PrimFloat.is_nan x = false → PrimFloat.is_nan y = false →
  PrimFloat.ltb x y = false → PrimFloat.leb y x = true.
Proof.
  intros Hx%is_nan_false Hy%is_nan_false Hlt. apply leb_rank.
  split_and!; [done..|]. apply rank_compare_total. intros Hc.
  assert (PrimFloat.ltb x y = true) by (by apply ltb_rank). congruence.
Qed.

Lemma leb_ltb_trans x y z :
  PrimFloat.leb x y = true → PrimFloat.ltb y z = true → PrimFloat.leb x z = true.
Proof.
  rewrite !leb_rank, ltb_rank. intros (Hx & Hy & Hxy) (_ & Hz & Hyz).
  split_and!; [done..|]. by rewrite (rank_compare_le_lt _ _ _ Hxy Hyz).
Qed.

Lemma ltb_leb_trans x y z :
  PrimFloat.ltb x y = true → PrimFloat.leb y z = true → PrimFloat.leb x z = true.
Proof.
  rewrite !leb_rank, ltb_rank. intros (Hx & Hy & Hxy) (_ & Hz & Hyz).
  split_and!; [done..|]. by rewrite (rank_compare_lt_le _ _ _ Hxy Hyz).
Qed.

(** A comparison with NaN is false, and a difference with NaN is NaN. *)
Lemma ltb_nan_r x y : PrimFloat.is_nan y = true → PrimFloat.ltb x y = false.
Proof.
  intros Hy%is_nan_true. rewrite FloatAxioms.ltb_spec. unfold SFltb.
  by rewrite SFcompare_nan by auto.
Qed.

Lemma sub_nan x y :
  PrimFloat.is_nan x = true ∨ PrimFloat.is_nan y = true →
  PrimFloat.is_nan (PrimFloat.sub x y) = true.
Proof.
  intros Hnan.
  assert (Prim2SF (PrimFloat.sub x y) = S754_nan) as Hsub.
  { rewrite FloatAxioms.sub_spec. unfold SF64sub.
    destruct Hnan as [->%is_nan_true| ->%is_nan_true]; [done|].
    by destruct (Prim2SF x). }
  unfold PrimFloat.is_nan. by rewrite FloatAxioms.eqb_spec, Hsub.
Qed.

End float_order.

Section spans.

Implicit Types (xs seen : list float) (x acc : float).

Lemma np_maximum_numbers x y :
  PrimFloat.is_nan x = false → PrimFloat.is_nan y = false →
  np_maximum x y = if PrimFloat.ltb x y then y else x.
Proof. unfold np_maximum. by intros -> ->. Qed.

Lemma np_minimum_numbers x y :
  PrimFloat.is_nan x = false → PrimFloat.is_nan y = false →
  np_minimum x y = if PrimFloat.ltb y x then y else x.
Proof. unfold np_minimum. by intros -> ->. Qed.

(** The reduction with [np.maximum] over numbers: what it has reached is
    among the numbers seen and at least each of them. *)
Lemma foldl_maximum_greatest xs acc seen :
  PrimFloat.is_nan acc = false → acc ∈ seen →
  Forall (λ y, PrimFloat.leb y acc = true) seen →
  Forall (λ y, PrimFloat.is_nan y = false) xs →
  foldl np_maximum acc xs ∈ seen ++ xs
  ∧ Forall (λ y, PrimFloat.leb y (foldl np_maximum acc xs) = true) (seen ++ xs).
Proof.
  revert acc seen. induction xs as [|x xs IH]; intros acc seen Hacc Hin Hseen Hxs.
  { rewrite app_nil_r. done. }
  apply Forall_cons in Hxs as [Hx Hxs]. cbn [foldl].
  rewrite np_maximum_numbers by done.
  rewrite (cons_middle x seen xs), app_assoc.
  destruct (PrimFloat.ltb acc x) eqn:Hlt.
  - apply IH; [done| |  |done].
    + apply elem_of_app. right. by left.
    + apply Forall_app. split; [|repeat constructor; by apply leb_refl].
      eapply Forall_impl; [exact Hseen|]. intros y Hy. simpl in *.
      by apply (leb_ltb_trans y acc x).
  - apply IH; [done| |  |done].
    + apply elem_of_app. by left.
    + apply Forall_app. split; [done|]. repeat constructor.
      by apply ltb_false_leb.
Qed.

Lemma foldl_minimum_least xs acc seen :
  PrimFloat.is_nan acc = false → acc ∈ seen →
  Forall (λ y, PrimFloat.leb acc y = true) seen →
  Forall (λ y, PrimFloat.is_nan y = false) xs →
  foldl np_minimum acc xs ∈ seen ++ xs
  ∧ Forall (λ y, PrimFloat.leb (foldl np_minimum acc xs) y = true) (seen ++ xs).
Proof.
  revert acc seen. induction xs as [|x xs IH]; intros acc seen Hacc Hin Hseen Hxs.
  { rewrite app_nil_r. done. }
  apply Forall_cons in Hxs as [Hx Hxs]. cbn [foldl].
  rewrite np_minimum_numbers by done.
  rewrite (cons_middle x seen xs), app_assoc.
  destruct (PrimFloat.ltb x acc) eqn:Hlt.
  - apply IH; [done| |  |done].
    + apply elem_of_app. right. by left.
    + apply Forall_app. split; [|repeat constructor; by apply leb_refl].
      eapply Forall_impl; [exact Hseen|]. intros y Hy. simpl in *.
      by apply (ltb_leb_trans x acc y).
  - apply IH; [done| |  |done].
    + apply elem_of_app. by left.
    + apply Forall_app. split; [done|]. repeat constructor.
      by apply ltb_false_leb.
Qed.

(** The span of numbers is the greatest less the least. *)
Lemma np_ptp_numbers xs :
  xs ≠ [] → Forall (λ y, PrimFloat.is_nan y = false) xs →
  ∃ lo hi, least_and_greatest xs lo hi ∧ np_ptp xs = Ok (PrimFloat.sub hi lo).
Proof.
  intros Hne Hxs. destruct xs as [|x xs]; [done|].
  apply Forall_cons in Hxs as [Hx Hxs].
  destruct (foldl_maximum_greatest xs x [x]) as [Hhi Hmost];
    [done|by left|by repeat constructor; apply leb_refl|done|].
  destruct (foldl_minimum_least xs x [x]) as [Hlo Hleast];
    [done|by left|by repeat constructor; apply leb_refl|done|].
  exists (foldl np_minimum x xs), (foldl np_maximum x xs).
  split; [|done]. split_and!; [done..|].
  rewrite Forall_forall in Hmost, Hleast |- *. intros y Hy. split; auto.
Qed.

(** NaN stays: a reduction that has reached NaN, or meets one, ends in NaN. *)
Lemma foldl_maximum_nan xs acc :
  PrimFloat.is_nan acc = true ∨ Exists (λ y, PrimFloat.is_nan y = true) xs →
  PrimFloat.is_nan (foldl np_maximum acc xs) = true.
Proof.
  revert acc. induction xs as [|x xs IH]; intros acc [Hacc|Hxs]; simpl.
  - done.
  - by apply Exists_nil in Hxs.
  - apply IH. left. unfold np_maximum. by rewrite Hacc.
  - apply IH. unfold np_maximum.
    destruct (PrimFloat.is_nan acc) eqn:Hacc; [by left|].
    apply Exists_cons in Hxs as [Hx|Hxs]; [left; by rewrite Hx|by right].
Qed.

Lemma foldl_minimum_nan xs acc :
  PrimFloat.is_nan acc = true ∨ Exists (λ y, PrimFloat.is_nan y = true) xs →
  PrimFloat.is_nan (foldl np_minimum acc xs) = true.
Proof.
  revert acc. induction xs as [|x xs IH]; intros acc [Hacc|Hxs]; simpl.
  - done.
  - by apply Exists_nil in Hxs.
  - apply IH. left. unfold np_minimum. by rewrite Hacc.
  - apply IH. unfold np_minimum.
    destruct (PrimFloat.is_nan acc) eqn:Hacc; [by left|].
    apply Exists_cons in Hxs as [Hx|Hxs]; [left; by rewrite Hx|by right].
Qed.

(** The span of values with a NaN among them is NaN, and no threshold is
    less than it. *)
Lemma np_ptp_nan xs (span : float) :
  Exists (λ y, PrimFloat.is_nan y = true) xs →
  ∃ s, np_ptp xs = Ok s ∧ PrimFloat.ltb span s = false.
Proof.
  intros Hnan. destruct xs as [|x xs]; [by apply Exists_nil in Hnan|].
  eexists. split; [done|]. apply ltb_nan_r, sub_nan. left.
  apply foldl_maximum_nan. apply Exists_cons in Hnan. tauto.
Qed.

Lemma np_ptp_returns xs : xs ≠ [] → ∃ s, np_ptp xs = Ok s.
Proof. destruct xs; [done|]. by eexists. Qed.

End spans.

(** ** Recipes and rules *)

Section recipe_theorems.

Implicit Types (fs : list pyobject) (func : pyobject) (track : list AISMessage).

Lemma check_signature_Ok func : _check_signature func = Ok tt ↔ well_signed func.
Proof.
  unfold well_signed, _check_signature. split.
  - destruct func as [|body|[[|p [|q ps]] ret] body|[[|p [|q ps]] ret] body];
      simpl; try done;
      (unfold parameters_getitem; simpl;
       destruct (bool_decide (name p = "track")) eqn:Hname; simpl; [|done];
       apply bool_decide_eq_true in Hname;
       destruct (decide (p_annotation p = list_AISMessage)) as [Hann|Hann];
       [|by rewrite bool_decide_true];
       rewrite bool_decide_false by auto;
       destruct (decide (ret = bool_)) as [->|Hret];
       [|by rewrite bool_decide_true];
       intros _; split; [done|]; by exists p).
  - intros (Hcallable & p & Hsig & Hname & Hann). rewrite Hcallable, Hsig.
    simpl. unfold parameters_getitem. simpl.
    rewrite bool_decide_true by done. simpl.
    rewrite Hann. by rewrite !bool_decide_false by auto.
Qed.

Lemma well_signed_dec func : {well_signed func} + {¬ well_signed func}.
Proof.
  destruct (_check_signature func) as [[]|e] eqn:Hcheck.
  - left. by apply check_signature_Ok.
  - right. rewrite <- check_signature_Ok, Hcheck. done.
Qed.

Lemma mapM_check_Ok fs :
  (∃ us, mapM _check_signature fs = Ok us) ↔ Forall well_signed fs.
Proof.
  induction fs as [|func fs IH]; simpl.
  { split; [constructor|by exists []]. }
  rewrite Forall_cons, <- IH, <- check_signature_Ok. split.
  - intros (us & Hus).
    destruct (_check_signature func) as [[]|e]; simpl in Hus; [|done].
    destruct (mapM _check_signature fs) as [us'|e]; simpl in Hus; [|done].
    eauto.
  - intros [-> (us & ->)]. simpl. eauto.
Qed.

(** Construction succeeds exactly on well-signed functions. *)
Lemma Recipe_init_Ok fs :
  (∃ r, Recipe_init fs = Ok r) ↔ Forall well_signed fs.
Proof.
  rewrite <- mapM_check_Ok. unfold Recipe_init. split.
  - intros (r & Hr). destruct (mapM _check_signature fs); [eauto|done].
  - intros (us & ->). simpl. eauto.
Qed.

Lemma call_positional (sig : Signature) (body : Track → result bool) track :
  well_signed (Function sig body) →
  Forall (λ p, takes_positional p = true) (parameters sig) →
  call (Function sig body) track = body track.
Proof.
  intros (_ & p & [= ->] & _ & _) Hpos. simpl in *.
  apply Forall_inv in Hpos. unfold binds_one_positional. simpl.
  by rewrite Hpos.
Qed.

(** C4: when every rule returns a boolean on the track, the cooked recipe
    returns their conjunction; a recipe of an always-true and an always-false
    rule rejects no track, and one of two always-true rules rejects every
    track. *)
Theorem cooked_is_conjunction :
  (∀ (r : Recipe) track bs,
     Forall2 (λ func b, call func track = Ok b) (funcs r) bs →
     cook r track = Ok (foldr andb true bs))
  ∧ (∀ track,
       Recipe_init [always true; always false]
       = Ok {| funcs := [always true; always false] |}
       ∧ cook {| funcs := [always true; always false] |} track = Ok false
       ∧ Recipe_init [always true; always true]
         = Ok {| funcs := [always true; always true] |}
       ∧ cook {| funcs := [always true; always true] |} track = Ok true).
Proof.
  split.
  - intros r track bs Hbs. unfold cook. by apply py_all_conjunction.
  - intros track. by repeat split.
Qed.

(** Construction succeeds exactly when every argument is a callable of
    which [inspect.signature] reports one parameter, named [track] and
    annotated [list[AISMessage]], and the return annotation [bool], and raises
    otherwise; the recipe built holds the functions given; and calling a
    function that passed the check and takes its parameter positionally runs
    its body. *)
Theorem construction_succeeds_iff_well_signed fs :
  ((∃ r, Recipe_init fs = Ok r) ↔ Forall well_signed fs)
  ∧ ((∃ e, Recipe_init fs = Raise e) ↔ Exists (λ func, ¬ well_signed func) fs)
  ∧ (∀ r, Recipe_init fs = Ok r → funcs r = fs)
  ∧ (∀ r sig body track,
       Recipe_init fs = Ok r → Function sig body ∈ funcs r →
       Forall (λ p, takes_positional p = true) (parameters sig) →
       call (Function sig body) track = body track).
Proof.
  split_and!.
  - apply Recipe_init_Ok.
  - split.
    + intros [e He].
      destruct (Forall_Exists_dec well_signed (λ func, ¬ well_signed func)
                  well_signed_dec fs) as [Hall|Hex]; [|done].
      apply Recipe_init_Ok in Hall as [r Hr]. congruence.
    + intros Hex. destruct (Recipe_init fs) as [r|e] eqn:Hr; [|eauto].
      destruct (Exists_not_Forall well_signed fs Hex).
      apply Recipe_init_Ok. eauto.
  - intros r. unfold Recipe_init.
    destruct (mapM _check_signature fs); simpl; [|done]. by intros [= <-].
  - intros r sig body track Hr Hin Hpos. apply call_positional; [|done].
    assert (Forall well_signed fs) as Hfs by (apply Recipe_init_Ok; eauto).
    assert (funcs r = fs) as Hfuncs.
    { revert Hr. unfold Recipe_init.
      destruct (mapM _check_signature fs); simpl; [|done]. by intros [= <-]. }
    rewrite Hfuncs in Hin. rewrite Forall_forall in Hfs. auto.
Qed.

(** C8: a rule whose only parameter is keyword-only,
    [def rule( *, track: list[AISMessage]) -> bool], passes the check at
    construction, whatever its body, and the cooked recipe raises [TypeError]
    on every track, when it calls the rule with the track as a positional
    argument. *)
Theorem keyword_only_rule_passes_construction (body : Track → result bool)
    track :
  Recipe_init [def_rule_kwonly body] = Ok {| funcs := [def_rule_kwonly body] |}
  ∧ cook {| funcs := [def_rule_kwonly body] |} track = Raise TypeError.
Proof. by split. Qed.

(** So does a wrapper without parameters that [functools.wraps] gives the
    signature of a rule. *)
Lemma wrapped_rule_passes_construction (body : Track → result bool) track :
  let rule :=
    wraps {| parameters := [track_parameter]; return_annotation := bool_ |}
          (def_no_parameter body) in
  Recipe_init [rule] = Ok {| funcs := [rule] |}
  ∧ cook {| funcs := [rule] |} track = Raise TypeError.
Proof. by split. Qed.

(** The rules of the module's own [ExampleRecipe] are [functools.partial]
    objects; their signatures have two parameters and construction raises. *)
Lemma partial_rules_fail_construction (n : Z) (sd : Track → result bool) :
  Recipe_init [ partial_kw "n" (other "int") (λ track, Ok (too_few_obs track n));
                partial_kw "sd" (other "float") sd ]
  = Raise TypeError.
Proof. done. Qed.

(** C10: [too_small_span] returns [True] exactly when the span of the
    latitudes, the greatest less the least, and the span of the longitudes are
    both strictly greater than [span], and [False] on every other track with a
    report: on a track without NaN coordinates it returns whether [span] is
    less than both differences, and with a NaN coordinate it returns [False];
    on the track without reports it raises [ValueError]. *)
Theorem too_small_span_flags_large_spans (track : list AISMessage) (span : float) :
  (track ≠ [] →
   Forall (λ m, PrimFloat.is_nan (lat m) = false
                ∧ PrimFloat.is_nan (lon m) = false) track →
   ∃ lat_lo lat_hi lon_lo lon_hi,
     least_and_greatest (lat <$> track) lat_lo lat_hi
     ∧ least_and_greatest (lon <$> track) lon_lo lon_hi
     ∧ too_small_span track span
       = Ok (PrimFloat.ltb span (PrimFloat.sub lat_hi lat_lo)
             && PrimFloat.ltb span (PrimFloat.sub lon_hi lon_lo)))
  ∧ (Exists (λ m, PrimFloat.is_nan (lat m) = true
                  ∨ PrimFloat.is_nan (lon m) = true) track →
     too_small_span track span = Ok false)
  ∧ (track = [] → too_small_span track span = Raise ValueError).
Proof.
  unfold too_small_span. change (map lat track) with (lat <$> track).
  change (map lon track) with (lon <$> track). split_and!.
  - intros Hne Hnum.
    destruct (np_ptp_numbers (lat <$> track)) as (lat_lo & lat_hi & Hlat & ->).
    { by intros ?%fmap_nil_inv. }
    { apply Forall_fmap. eapply Forall_impl; [exact Hnum|]. by intros m [? _]. }
    destruct (np_ptp_numbers (lon <$> track)) as (lon_lo & lon_hi & Hlon & ->).
    { by intros ?%fmap_nil_inv. }
    { apply Forall_fmap. eapply Forall_impl; [exact Hnum|]. by intros m [_ ?]. }
    by exists lat_lo, lat_hi, lon_lo, lon_hi.
  - intros Hnan.
    assert (track ≠ []) as Hne by (intros ->; by apply Exists_nil in Hnan).
    assert (Exists (λ y, PrimFloat.is_nan y = true) (lat <$> track)
            ∨ Exists (λ y, PrimFloat.is_nan y = true) (lon <$> track)) as [Hlat|Hlon].
    { apply Exists_exists in Hnan as (m & Hm & [Hlat|Hlon]); [left|right];
        apply Exists_exists; eexists; (split; [by apply list_elem_of_fmap_2|done]). }
    + destruct (np_ptp_nan _ span Hlat) as (s & -> & Hs).
      destruct (np_ptp_returns (lon <$> track)) as [s' ->];
        [by intros ?%fmap_nil_inv|].
      simpl. by rewrite Hs.
    + destruct (np_ptp_returns (lat <$> track)) as [s' ->];
        [by intros ?%fmap_nil_inv|].
      destruct (np_ptp_nan _ span Hlon) as (s & -> & Hs).
      simpl. by rewrite Hs, andb_false_r.
  - by intros ->.
Qed.

(** A track spanning one degree of latitude and two of longitude is flagged
    for a threshold of half a degree; a track that stays in place is not. *)
Lemma too_small_span_examples :
  too_small_span
    [ {| sender := 111; timestamp := 0; lat := 56; lon := 8; COG := 0; SOG := 10 |};
      {| sender := 111; timestamp := 60; lat := 57; lon := 10; COG := 0; SOG := 10 |} ]
    0.5 = Ok true
  ∧ too_small_span [report_0; report_0] 0.5 = Ok false
  ∧ too_small_span [] 0.5 = Raise ValueError.
Proof. by vm_compute. Qed.

End recipe_theorems.

(** ** Evaluation order and construction errors *)

Section recipe_evaluation.

Implicit Types (fs pre post : list pyobject) (func : pyobject)
  (track : list AISMessage).

Lemma py_all_true fs track :
  py_all fs track = Ok true ↔ Forall (λ func, call func track = Ok true) fs.
Proof.
  induction fs as [|func fs IH]; simpl; [by split|].
  rewrite Forall_cons, <- IH.
  destruct (call func track) as [[]|e]; simpl; split; try done; tauto.
Qed.

Lemma py_all_stops fs track (out : result bool) :
  out ≠ Ok true →
  py_all fs track = out ↔
  ∃ pre func post, fs = pre ++ func :: post
    ∧ Forall (λ func, call func track = Ok true) pre
    ∧ call func track = out.
Proof.
  intros Hout. induction fs as [|func fs IH]; simpl.
  { split; [congruence|]. intros (pre & ? & ? & Hnil & _). by destruct pre. }
  destruct (call func track) as [[]|e] eqn:Hcall; simpl.
  - rewrite IH. split.
    + intros (pre & f & post & -> & Hpre & Hf).
      exists (func :: pre), f, post. split_and!; [done| |done]. by constructor.
    + intros (pre & f & post & Hfs & Hpre & Hf).
      destruct pre as [|g pre]; simpl in Hfs; injection Hfs as -> ->.
      * congruence.
      * apply Forall_cons in Hpre as [_ Hpre]. by exists pre, f, post.
  - split.
    + intros <-. exists [], func, fs. by split_and!.
    + intros (pre & f & post & Hfs & Hpre & Hf).
      destruct pre as [|g pre]; simpl in Hfs; injection Hfs as -> ->.
      * congruence.
      * apply Forall_cons in Hpre as [? _]. congruence.
  - split.
    + intros <-. exists [], func, fs. by split_and!.
    + intros (pre & f & post & Hfs & Hpre & Hf).
      destruct pre as [|g pre]; simpl in Hfs; injection Hfs as -> ->.
      * congruence.
      * apply Forall_cons in Hpre as [? _]. congruence.
Qed.

(** The cooked recipe calls the rules in order and stops at the first that
    does not return [True]: it returns [True] exactly when every rule does, and
    returns [False], or raises, exactly when the first rule that does not
    return [True] returns [False], or raises; what the rules behind that one
    would do is of no matter. A recipe of no rule returns [True]. *)
Theorem cooked_stops_at_first_failure (r : Recipe) track :
  (cook r track = Ok true ↔ Forall (λ func, call func track = Ok true) (funcs r))
  ∧ (∀ out, out ≠ Ok true →
       cook r track = out ↔
       ∃ pre func post, funcs r = pre ++ func :: post
         ∧ Forall (λ func, call func track = Ok true) pre
         ∧ call func track = out)
  ∧ cook {| funcs := [] |} track = Ok true.
Proof.
  unfold cook. split_and!; [apply py_all_true| |done].
  intros out Hout. by apply py_all_stops.
Qed.

(** Which error the signature check raises. *)
Lemma check_signature_error func e :
  _check_signature func = Raise e →
  match func with
  | NonCallable => e = TypeError
  | Builtin _ => e = ValueError
  | Function sig _ | Described sig _ =>
      match parameters sig with
      | [p] => if decide (name p = "track") then e = TypeError
               else e = KeyError
      | _ => e = TypeError
      end
  end.
Proof.
  unfold _check_signature.
  destruct func as [|body|[[|p [|q ps]] ret] body|[[|p [|q ps]] ret] body];
    simpl; try congruence;
    (unfold parameters_getitem; simpl;
     destruct (decide (name p = "track")) as [Hname|Hname];
     [rewrite bool_decide_true by done; simpl;
      repeat case_bool_decide; congruence
     |rewrite bool_decide_false by done; simpl; congruence]).
Qed.

Lemma check_signature_raises func :
  ¬ well_signed func → _check_signature func = Raise (signature_error func).
Proof.
  intros Hfunc. destruct (_check_signature func) as [[]|e] eqn:Hcheck.
  { by apply check_signature_Ok in Hcheck. }
  f_equal. apply check_signature_error in Hcheck.
  destruct func as [|body|[[|p [|q ps]] ret] body|[[|p [|q ps]] ret] body];
    simpl in *; try done;
    by destruct (decide (name p = "track")).
Qed.

(** Construction fails with the error of the first argument that is not
    well signed: [KeyError] when it is a function of one parameter that is not
    named [track], [ValueError] when it has no signature, and [TypeError]
    otherwise. *)
Theorem construction_error_of_first_offender pre func post :
  Forall well_signed pre → ¬ well_signed func →
  Recipe_init (pre ++ func :: post) = Raise (signature_error func).
Proof.
  intros Hpre Hfunc. unfold Recipe_init.
  induction Hpre as [|g pre Hg%check_signature_Ok _ IH]; simpl.
  - by rewrite (check_signature_raises func Hfunc).
  - rewrite Hg. simpl.
    destruct (mapM _check_signature (pre ++ func :: post)); simpl in *; congruence.
Qed.

Lemma construction_error_of_first_offender_witness :
  Recipe_init [always true; def_rule_named "t" (λ _, Ok true); NonCallable]
  = Raise KeyError.
Proof.
  apply (construction_error_of_first_offender
           [always true] (def_rule_named "t" (λ _, Ok true)) [NonCallable]).
  - repeat constructor. by eexists.
  - intros (_ & p & [= <-] & Hname & _). done.
Defined.

End recipe_evaluation.
